(** * Matching ORION (CRM) records against the SIRENE registry

    A shallow embedding of [updatev7.py]: text normalisation, blocking by
    department, fuzzy scoring, best-candidate selection, the recursive
    workforce resolver and the orchestrating loop, followed by the
    properties established about them.

    Conventions.
    - A Python [str] is the list of its Unicode code points ([pystr]).
    - A cell of a table loaded with [dtype=str] is a string or NaN ([cell]).
    - A Python dict is a finite map; dict objects live in a store ([heap])
      and are named by their location, so that copying and in-place update
      can be told apart.
    - A Python exception is a value of [exn]; a function that can raise
      returns a [res].
    - The Unicode character database and [fuzz.token_sort_ratio] are
      libraries outside the repository: the code is embedded over any
      choice of them ([unicode_data], [token_sort_ratio]). *)

From Stdlib Require Import ZArith NArith QArith Bool Lia String Ascii DecimalString.
From stdpp Require Import base option list gmap.

Local Open Scope N_scope.

(** ** Python strings *)

Abbreviation pystr := (list N).

(** A string literal, code point by code point. *)
Definition lit (s : string) : pystr :=
  List.map N_of_ascii (list_ascii_of_string s).

(** [str.isspace] for one character: the characters Python treats as
    whitespace in [str.strip], [str.split] and the regular expression [\s]. *)
Definition isspace (c : N) : bool :=
  ((0x09 <=? c) && (c <=? 0x0D)) || ((0x1C <=? c) && (c <=? 0x20))
  || (c =? 0x85) || (c =? 0xA0) || (c =? 0x1680)
  || ((0x2000 <=? c) && (c <=? 0x200A))
  || (c =? 0x2028) || (c =? 0x2029) || (c =? 0x202F) || (c =? 0x205F)
  || (c =? 0x3000).

Fixpoint lstrip (s : pystr) : pystr :=
  match s with
  | c :: r => if isspace c then lstrip r else s
  | [] => []
  end.

Definition rstrip (s : pystr) : pystr := rev (lstrip (rev s)).

(** [s.strip()] *)
Definition strip (s : pystr) : pystr := rstrip (lstrip s).

(** [s.split()]: the maximal runs of non-space characters. *)
Fixpoint split (s : pystr) : list pystr :=
  match s with
  | [] => []
  | c :: r =>
      if isspace c then split r
      else match r with
           | [] => [[c]]
           | d :: _ =>
               if isspace d then [c] :: split r
               else match split r with
                    | w :: ws => (c :: w) :: ws
                    | [] => [[c]]
                    end
           end
  end.

Fixpoint startswith (s p : pystr) : bool :=
  match p, s with
  | [], _ => true
  | a :: p', b :: s' => (a =? b) && startswith s' p'
  | _ :: _, [] => false
  end.

(** [p in s] on strings: [p] occurs in [s] as a contiguous substring. *)
Fixpoint py_in (p s : pystr) : bool :=
  startswith s p ||
  match s with
  | [] => false
  | _ :: s' => py_in p s'
  end.

(** [s.replace(" ", "")] *)
Definition remove_spaces (s : pystr) : pystr :=
  List.filter (fun c => negb (c =? 0x20)) s.

Definition pystr_eqb (a b : pystr) : bool := bool_decide (a = b).

(** ** The Unicode data the code relies on

    Outside ASCII the case mappings, the compatibility decompositions and
    the alphanumeric classes come from the Unicode character database that
    ships with Python. The embedding takes them as a table. *)
Record unicode_data := {
  ucd_lower : N -> pystr;   (* full lower-case mapping of a non-ASCII character *)
  ucd_upper : N -> pystr;   (* full upper-case mapping of a non-ASCII character *)
  ucd_decomp : N -> pystr;  (* full compatibility decomposition of a non-ASCII character *)
  ucd_alnum : N -> bool     (* [str.isalnum] for a non-ASCII character *)
}.

Definition is_ascii (c : N) : bool := c <? 128.
Definition is_upper_ascii (c : N) : bool := (0x41 <=? c) && (c <=? 0x5A).
Definition is_lower_ascii (c : N) : bool := (0x61 <=? c) && (c <=? 0x7A).
Definition is_digit_ascii (c : N) : bool := (0x30 <=? c) && (c <=? 0x39).

Section Unicode.
Variable U : unicode_data.

Definition lower_char (c : N) : pystr :=
  if is_ascii c then [if is_upper_ascii c then c + 32 else c] else ucd_lower U c.

Definition upper_char (c : N) : pystr :=
  if is_ascii c then [if is_lower_ascii c then c - 32 else c] else ucd_upper U c.

(** [s.lower()] and [s.upper()], character by character. (Python lowers a
    Greek capital sigma at the end of a word to the final sigma; that
    context rule is not part of the table. It is without effect on
    [normalize_name], which drops every non-ASCII character.) *)
Definition str_lower (s : pystr) : pystr := flat_map lower_char s.
Definition str_upper (s : pystr) : pystr := flat_map upper_char s.

(** [unicodedata.normalize('NFKD', s)]: every character is replaced by its
    full compatibility decomposition. The canonical reordering that follows
    only permutes combining marks, none of which is ASCII, and the next
    step of [normalize_name] drops every non-ASCII character. *)
Definition nfkd (s : pystr) : pystr :=
  flat_map (fun c => if is_ascii c then [c] else ucd_decomp U c) s.

(** [s.encode('ascii', 'ignore').decode('ascii')] *)
Definition ascii_ignore (s : pystr) : pystr := List.filter is_ascii s.

(** The regular expression class [\w]. *)
Definition is_word (c : N) : bool :=
  if is_ascii c
  then is_upper_ascii c || is_lower_ascii c || is_digit_ascii c || (c =? 0x5F)
  else ucd_alnum U c.

(** [re.sub(r'\([^)]*\)', ' ', s)]: scanning from the left, an opening
    parenthesis that has a closing one after it is replaced, together with
    everything up to the first closing parenthesis, by one space. The flag
    says whether the scan is inside such a match. *)
Fixpoint sub_parens (inside : bool) (s : pystr) : pystr :=
  match s with
  | [] => []
  | c :: r =>
      if inside then
        if c =? 0x29 then sub_parens false r else sub_parens true r
      else if (c =? 0x28) && existsb (N.eqb 0x29) r
           then 0x20 :: sub_parens true r
           else c :: sub_parens false r
  end.

(** Whether [s] starts with the word [w] followed by a word boundary. *)
Definition word_here (s w : pystr) : bool :=
  startswith s w &&
  match drop (length w) s with
  | [] => true
  | d :: _ => negb (is_word d)
  end.

(** The first alternative of [\b(w1|w2|...)\b] that matches at the start
    of [s], given that there is a word boundary before [s]. *)
Fixpoint first_alt (alts : list pystr) (s : pystr) : option pystr :=
  match alts with
  | [] => None
  | w :: alts' => if word_here s w then Some w else first_alt alts' s
  end.

(** [re.sub(r'\b(w1|w2|...)\b', ' ', s)] for non-empty words made of word
    characters. [prev] says whether the previous character is a word
    character, [skip] how many characters the last match still covers. *)
Fixpoint sub_words (alts : list pystr) (prev : bool) (skip : nat) (s : pystr) : pystr :=
  match s with
  | [] => []
  | c :: r =>
      match skip with
      | S k => sub_words alts (is_word c) k r
      | O =>
          if negb prev && is_word c then
            match first_alt alts s with
            | Some w => 0x20 :: sub_words alts (is_word c) (pred (length w)) r
            | None => c :: sub_words alts (is_word c) O r
            end
          else c :: sub_words alts (is_word c) O r
      end
  end.

(** [re.sub(r"[^\w\s-]", " ", s)] *)
Definition sub_punct (s : pystr) : pystr :=
  List.map (fun c => if is_word c || isspace c || (c =? 0x2D) then c else 0x20) s.

(** [re.sub(r'\s+', ' ', s)] *)
Fixpoint collapse_spaces (s : pystr) : pystr :=
  match s with
  | [] => []
  | c :: r =>
      if isspace c then
        match r with
        | d :: _ => if isspace d then collapse_spaces r else 0x20 :: collapse_spaces r
        | [] => [0x20]
        end
      else c :: collapse_spaces r
  end.
End Unicode.

Definition legal_forms : list pystr :=
  List.map lit ["sarl"; "sa"; "sas"; "sasu"; "eurl"; "ei"; "sci"; "scop"; "snc"; "sc"; "sasf"]%string.

(** ** Table cells *)

(** A cell of a table loaded with [dtype=str]: a string, or NaN when empty. *)
Inductive cell :=
  | Str (s : pystr)
  | NaN.

(** Any value a dict or the headquarters flag can hold. [PFloat z] is the
    float of integral value [z], for [z] below [10^16] in absolute value
    (the program only creates [0.0] and [-1.0]): the range in which [str]
    prints a float as its digits followed by [.0]. From [1e16] on Python
    prints a float in exponent notation, which [py_str] does not follow;
    such a float is outside the model. *)
Inductive pyval :=
  | PCell (c : cell)
  | PBool (b : bool)
  | PInt (z : Z)
  | PFloat (z : Z).

#[global] Instance cell_eq_dec : EqDecision cell.
Proof. solve_decision. Defined.
#[global] Instance pyval_eq_dec : EqDecision pyval.
Proof. solve_decision. Defined.

(** [str(c)] *)
Definition cell_str (c : cell) : pystr :=
  match c with
  | Str s => s
  | NaN => lit "nan"
  end.

(** Truth value of a cell: the empty string is false, NaN (a non-zero
    float) is true. *)
Definition cell_truthy (c : cell) : bool :=
  match c with
  | Str [] => false
  | _ => true
  end.

Definition truthy (v : pyval) : bool :=
  match v with
  | PCell c => cell_truthy c
  | PBool b => b
  | PInt z | PFloat z => negb (z =? 0)%Z
  end.

(** ** Exceptions *)

Inductive exn := AttributeError | TypeError | IndexError | RecursionError.

Inductive res (A : Type) :=
  | Ok (a : A)
  | Raise (e : exn).
Arguments Ok {A} a.
Arguments Raise {A} e.

Definition bind {A B} (x : res A) (f : A -> res B) : res B :=
  match x with
  | Ok a => f a
  | Raise e => Raise e
  end.

Notation "'let*' x ':=' c1 'in' c2" := (bind c1 (fun x => c2))
  (at level 10, x name, c1 at level 100, c2 at level 200).

(** ** The registry *)

(** One row of the SIRENE table. The text columns are cells; the
    headquarters flag is whatever the caller's table holds (a boolean, or
    text when the table was read with [dtype=str]). [dept] is the column
    that [create_sirene_by_dept] adds. *)
Record sirene_row := {
  siret : cell;
  siren : cell;
  nom_normalise : cell;
  libelleCommuneEtablissement : cell;
  codePostalEtablissement : cell;
  trancheEffectifsEtablissement : cell;
  etatAdministratifEtablissement : cell;
  etablissementSiege : pyval;
  dept : option pystr
}.

#[global] Instance sirene_row_eq_dec : EqDecision sirene_row.
Proof. solve_decision. Defined.

Definition A_PRECISER : cell := Str (lit "A PRECISER").
Definition RADIEE : cell := Str (lit "RADIEE").

(** [find_headquarters]: the first row of the headquarters table whose
    SIREN, as a string, is the one looked for. [astype(str)] is taken as
    pandas has it before version 3: every cell goes through [str], so that
    a missing SIREN reads ["nan"]. (From pandas 3 on a missing cell stays
    missing under [astype(str)]; the two agree on every cell that holds a
    string.) *)
Definition find_headquarters (sirene_head_subset : list sirene_row) (siren_code : cell)
  : option sirene_row :=
  List.find (fun r => pystr_eqb (cell_str (siren r)) (cell_str siren_code))
            sirene_head_subset.

(** [fill_effectif]. [fuel] is the number of nested calls the interpreter
    still allows: Python raises [RecursionError] when they are used up. *)
Fixpoint fill_effectif (fuel : nat) (sirene_record : sirene_row)
    (sirene_head_subset : list sirene_row) : res cell :=
  match fuel with
  | O => Raise RecursionError
  | S fuel' =>
      let etat := etatAdministratifEtablissement sirene_record in
      let effectif := trancheEffectifsEtablissement sirene_record in
      let est_siege := etablissementSiege sirene_record in
      let siren_code := siren sirene_record in
      if bool_decide (etat = Str (lit "A")) then
        Ok (if cell_truthy effectif then effectif else A_PRECISER)
      else if bool_decide (etat = Str (lit "F")) then
        if truthy est_siege then Ok RADIEE
        else match find_headquarters sirene_head_subset siren_code with
             | Some siege => fill_effectif fuel' siege sirene_head_subset
             | None => Ok A_PRECISER
             end
      else Ok A_PRECISER
  end.

(** [create_sirene_by_dept], step by step. *)

Definition is_active (r : sirene_row) : bool :=
  bool_decide (etatAdministratifEtablissement r = Str (lit "A")).

(** The three [astype(str)] conversions and the new [dept] column.
    [astype(str)] is that of pandas before version 3, as in
    [find_headquarters]: [str] of every cell, a missing cell becoming the
    string ["nan"]. On a row whose SIRET, SIREN and postal code are strings
    the conversions change nothing, in every version of pandas. *)
Definition with_dept (r : sirene_row) : sirene_row :=
  let cp := cell_str (codePostalEtablissement r) in
  {| siret := Str (cell_str (siret r));
     siren := Str (cell_str (siren r));
     nom_normalise := nom_normalise r;
     libelleCommuneEtablissement := libelleCommuneEtablissement r;
     codePostalEtablissement := Str cp;
     trancheEffectifsEtablissement := trancheEffectifsEtablissement r;
     etatAdministratifEtablissement := etatAdministratifEtablissement r;
     etablissementSiege := etablissementSiege r;
     dept := Some (take 2 cp) |}.

(** [df.groupby('dept')]: one group per distinct key, holding the rows of
    that key in table order. (pandas yields the groups by increasing key;
    they only go into a dict, so the order is left as first met.) *)
Definition groupby_dept (df : list sirene_row) : list (pystr * list sirene_row) :=
  (fun k => (k, List.filter (fun r => bool_decide (dept r = Some k)) df))
    <$> remove_dups (omap dept df).

Definition create_sirene_by_dept (sirene_df : list sirene_row)
  : gmap pystr (list sirene_row) :=
  let df := with_dept <$> List.filter is_active sirene_df in
  foldl (fun sirene_by_dept '(d, group) => <[d := group]> sirene_by_dept)
        ∅ (groupby_dept df).

(** ** Scoring and matching *)

Section Engine.
Variable U : unicode_data.
(** [fuzz.token_sort_ratio] of the fuzzywuzzy library. *)
Variable token_sort_ratio : pystr -> pystr -> Z.

(** [normalize_name] *)
Definition normalize_name (name : cell) : pystr :=
  match name with
  | NaN => []
  | Str name =>
      match strip name with
      | [] => []
      | _ :: _ =>
          let s := nfkd U (str_lower U name) in
          let s := ascii_ignore s in
          let s := sub_parens false s in
          let s := sub_words U [lit "cedex"] false O s in
          let s := sub_punct U s in
          let s := sub_words U legal_forms false O s in
          strip (collapse_spaces s)
      end
  end.

(** [extract_acronym]: the first character of every word. *)
Definition extract_acronym (name : pystr) : pystr :=
  flat_map (take 1) (split name).

Definition nonempty (s : pystr) : bool :=
  match s with
  | [] => false
  | _ :: _ => true
  end.

Definition substring_bonus (client_norm siren_norm : pystr) : Z :=
  if py_in client_norm siren_norm || py_in siren_norm client_norm then 20 else 0.

Definition acronym_bonus (client_norm siren_norm : pystr) : Z :=
  let client_acro := extract_acronym client_norm in
  let siren_acro := extract_acronym siren_norm in
  if nonempty client_acro && nonempty siren_acro then
    if pystr_eqb client_acro siren_acro then 20
    else if py_in client_acro (remove_spaces siren_norm) then 15
    else 0
  else 0.

Definition city_bonus (client_city siren_city : pystr) : Z :=
  if nonempty client_city && nonempty siren_city && pystr_eqb client_city siren_city
  then 10 else -10.

(** [match_score]. Every argument goes through [str()] first. *)
Definition match_score (client_norm siren_norm client_city siren_city : cell) : Z :=
  let client_norm := cell_str client_norm in
  let siren_norm := cell_str siren_norm in
  let client_city := str_lower U (strip (cell_str client_city)) in
  let siren_city := str_lower U (strip (cell_str siren_city)) in
  let ratio_token := token_sort_ratio client_norm siren_norm in
  (ratio_token + substring_bonus client_norm siren_norm
   + acronym_bonus client_norm siren_norm + city_bonus client_city siren_city)%Z.

(** The score of one row against the normalised query, as computed in
    the loop of [match_single_company]. *)
Definition row_score (normalized_client_name normalized_client_city : pystr)
    (row : sirene_row) : Z :=
  let siren_name := nom_normalise row in
  let siren_city := libelleCommuneEtablissement row in
  let normalized_siren_city := normalize_name siren_city in
  match_score (Str normalized_client_name) siren_name
              (Str normalized_client_city) (Str normalized_siren_city).

(** One iteration of the loop: the state is [(best_score, best_match)]. *)
Definition scan_step (name city : pystr) (st : Z * option sirene_row)
    (row : sirene_row) : Z * option sirene_row :=
  let score := row_score name city row in
  if (st.1 <? score)%Z then (score, Some row) else st.

(** [match_single_company]. The initial best score [-1.0] and the integer
    scores are compared by value; the threshold is any finite float, taken
    as the rational number it denotes. [Some (best_match, best_score)] is
    the returned pair, [None] the returned [None]. *)
Definition match_single_company (client_name client_city : cell)
    (sirene_subset : list sirene_row) (threshold : Q)
  : option (option sirene_row * Z) :=
  let normalized_client_name := normalize_name client_name in
  let normalized_client_city := normalize_name client_city in
  let '(best_score, best_match) :=
    foldl (scan_step normalized_client_name normalized_client_city)
          ((-1)%Z, None) sirene_subset in
  if Qle_bool threshold (inject_Z best_score)
  then Some (best_match, best_score) else None.
End Engine.

(** ** The CRM records and the orchestrator *)

(** A CRM record is a Python dict; the store holds the dict objects and a
    list of records is a list of locations in it. A location past the end
    of the store names no object; it reads as the empty dict and does not
    arise from a list of records of the store. *)
Abbreviation dict := (gmap pystr pyval).
Abbreviation heap := (list dict).

Definition k_SIRET : pystr := lit "SIRET".
Definition k_SIREN : pystr := lit "SIREN".
Definition k_effectif : pystr := lit "effectif".
Definition k_nom_match_sirene : pystr := lit "nom_match_sirene".
Definition k_score_match : pystr := lit "score_match".
Definition k_Pays : pystr := lit "Pays".
Definition k_CP : pystr := lit "CP".
Definition k_Societe : pystr := lit "Soci" ++ [0xE9] ++ lit "t" ++ [0xE9].
Definition k_Ville : pystr := lit "Ville".

Definition enrichment_fields : list pystr :=
  [k_SIRET; k_SIREN; k_effectif; k_nom_match_sirene; k_score_match].

(** Decimal digits of an integer. *)
Definition dec (z : Z) : pystr := lit (NilZero.string_of_int (Z.to_int z)).

(** [str(v)], for the values of the model: a float is one of integral
    value below [10^16] in absolute value (see [pyval]). *)
Definition py_str (v : pyval) : pystr :=
  match v with
  | PCell c => cell_str c
  | PBool true => lit "True"
  | PBool false => lit "False"
  | PInt z => dec z
  | PFloat z => dec z ++ lit ".0"
  end.

(** [v == True], as in the mask [sirene_df['etablissementSiege'] == True]. *)
Definition eq_True (v : pyval) : bool :=
  match v with
  | PBool b => b
  | PInt z | PFloat z => (z =? 1)%Z
  | PCell _ => false
  end.

(** [d.get(k, '')] *)
Definition get_or_empty (d : dict) (k : pystr) : pyval :=
  default (PCell (Str [])) (d !! k).

(** [d.setdefault(k, v)] *)
Definition setdefault (k : pystr) (v : pyval) (d : dict) : dict :=
  match d !! k with
  | Some _ => d
  | None => <[k := v]> d
  end.

(** The receiver of [.strip()]: only a string has the method. *)
Definition as_str (v : pyval) : res pystr :=
  match v with
  | PCell (Str s) => Ok s
  | _ => Raise AttributeError
  end.

(** The argument of [normalize_name]: a string or NaN goes through; on
    anything else [name.lower()] raises. *)
Definition as_text (v : pyval) : res cell :=
  match v with
  | PCell c => Ok c
  | _ => Raise AttributeError
  end.

(** The body of the first loop of [update_CRM]: the copy and its defaults. *)
Definition new_record (rec : dict) : dict :=
  setdefault k_score_match (PFloat 0)
    (setdefault k_nom_match_sirene (PCell (Str []))
      (setdefault k_effectif (PCell (Str []))
        (setdefault k_SIREN (PCell (Str []))
          (setdefault k_SIRET (PCell (Str [])) rec)))).

Definition copy_records (h : heap) (crm_db : list nat) : heap * list nat :=
  foldl (fun '(h, crm_updated) rec =>
           (h ++ [new_record (h !!! rec)], crm_updated ++ [length h]))
        (h, []) crm_db.

(** [remplir_ligne_orion]: five assignments into the dict
    [crm_updated[client_index]], the last one after [fill_effectif]. *)
Definition remplir_ligne_orion (fuel : nat) (h : heap) (crm_updated : list nat)
    (client_index : nat) (sirene_row_ : sirene_row)
    (sirene_head_subset : list sirene_row) (matched_name : cell) (score : Z)
  : res heap :=
  match crm_updated !! client_index with
  | None => Raise IndexError
  | Some l =>
      let d := h !!! l in
      let d := <[k_SIRET := PCell (siret sirene_row_)]> d in
      let d := <[k_SIREN := PCell (siren sirene_row_)]> d in
      let d := <[k_nom_match_sirene := PCell matched_name]> d in
      let d := <[k_score_match := PInt score]> d in
      let* effectif := fill_effectif fuel sirene_row_ sirene_head_subset in
      Ok (<[l := <[k_effectif := PCell effectif]> d]> h)
  end.

Section Orchestrator.
Variable U : unicode_data.
Variable token_sort_ratio : pystr -> pystr -> Z.

(** The body of the main loop of [update_CRM] for the record at position
    [i], whose dict is at location [l]. *)
Definition update_client (fuel : nat) (sirene_head_subset : list sirene_row)
    (sirene_by_dept : gmap pystr (list sirene_row)) (crm_updated : list nat)
    (h : heap) (i l : nat) : res heap :=
  let client := h !!! l in
  let* pays := as_str (get_or_empty client k_Pays) in
  if negb (pystr_eqb (str_upper U (strip pays)) (lit "FRANCE")) then Ok h
  else
    let dept := take 2 (py_str (get_or_empty client k_CP)) in
    match sirene_by_dept !! dept with
    | None | Some [] => Ok h
    | Some subset =>
        let* client_name := as_text (get_or_empty client k_Societe) in
        let* client_city := as_text (get_or_empty client k_Ville) in
        match match_single_company U token_sort_ratio
                client_name client_city subset 100 with
        | None => Ok h
        | Some (None, _) => Raise TypeError
        | Some (Some match_row, match_score_value) =>
            remplir_ligne_orion fuel h crm_updated i match_row
              sirene_head_subset (nom_normalise match_row) match_score_value
        end
    end.

Fixpoint update_loop (fuel : nat) (sirene_head_subset : list sirene_row)
    (sirene_by_dept : gmap pystr (list sirene_row)) (crm_updated : list nat)
    (h : heap) (i : nat) (rest : list nat) : res heap :=
  match rest with
  | [] => Ok h
  | l :: rest' =>
      let* h' := update_client fuel sirene_head_subset sirene_by_dept crm_updated h i l in
      update_loop fuel sirene_head_subset sirene_by_dept crm_updated h' (S i) rest'
  end.

(** [update_CRM] with [output_path=None]: the store after the run and the
    returned list [crm_updated]. *)
Definition update_CRM (fuel : nat) (sirene_df : list sirene_row)
    (h : heap) (crm_db : list nat) : res (heap * list nat) :=
  let sirene_head_subset :=
    List.filter (fun r => eq_True (etablissementSiege r)) sirene_df in
  let sirene_by_dept := create_sirene_by_dept sirene_df in
  let '(h, crm_updated) := copy_records h crm_db in
  let* h := update_loop fuel sirene_head_subset sirene_by_dept crm_updated
              h O crm_updated in
  Ok (h, crm_updated).
End Orchestrator.

(** ** Sample library data

    The scoring engine is embedded over any Unicode table and any ratio.
    To run it, this part fixes a table and a ratio. *)

(** An excerpt of the Unicode character database: the Latin-1 letters,
    a few accented letters with their decompositions, the no-break space
    and the trade mark sign U+2122, which has no case mapping and whose
    compatibility decomposition is the two capitals [TM]. Other characters
    are left as they are. *)
Definition is_latin1_upper (c : N) : bool :=
  (0xC0 <=? c) && (c <=? 0xDE) && negb (c =? 0xD7).
Definition is_latin1_lower (c : N) : bool :=
  (0xE0 <=? c) && (c <=? 0xFE) && negb (c =? 0xF7).

Definition sample_decomp (c : N) : pystr :=
  if c =? 0xA0 then [0x20]
  else if c =? 0xE0 then [0x61; 0x300]
  else if c =? 0xE7 then [0x63; 0x327]
  else if c =? 0xE8 then [0x65; 0x300]
  else if c =? 0xE9 then [0x65; 0x301]
  else if c =? 0xEA then [0x65; 0x302]
  else if c =? 0xF4 then [0x6F; 0x302]
  else if c =? 0x2122 then [0x54; 0x4D]
  else [c].

Definition sample_ucd : unicode_data :=
  {| ucd_lower := fun c => [if is_latin1_upper c then c + 32 else c];
     ucd_upper := fun c => [if is_latin1_lower c then c - 32 else c];
     ucd_decomp := sample_decomp;
     ucd_alnum := fun c => is_latin1_upper c || is_latin1_lower c |}.

(** A ratio in the manner of fuzzywuzzy on its Levenshtein backend: both
    strings are cleaned ([\W] to space, lower case, strip), their tokens
    sorted and joined; equal results score 100, an empty one 0, otherwise
    the score is [200 * lcs / (len1 + len2)] rounded to the nearest integer
    (ties to even), [lcs] being the length of a longest common
    subsequence. *)
Fixpoint lcs (a b : pystr) : nat :=
  match a with
  | [] => O
  | x :: a' =>
      (fix lcs_x (b : pystr) : nat :=
         match b with
         | [] => O
         | y :: b' =>
             if x =? y then S (lcs a' b')
             else Nat.max (lcs a' b) (lcs_x b')
         end) b
  end.

Fixpoint pystr_leb (a b : pystr) : bool :=
  match a, b with
  | [], _ => true
  | _ :: _, [] => false
  | x :: a', y :: b' => (x <? y) || ((x =? y) && pystr_leb a' b')
  end.

Fixpoint insert_sorted (w : pystr) (ws : list pystr) : list pystr :=
  match ws with
  | [] => [w]
  | v :: ws' => if pystr_leb w v then w :: ws else v :: insert_sorted w ws'
  end.

Definition sort_tokens (ws : list pystr) : list pystr :=
  foldr insert_sorted [] ws.

Fixpoint join_spaces (ws : list pystr) : pystr :=
  match ws with
  | [] => []
  | [w] => w
  | w :: ws' => w ++ 0x20 :: join_spaces ws'
  end.

Definition process_and_sort (U : unicode_data) (s : pystr) : pystr :=
  let s := List.filter (fun c => negb ((128 <=? c) && (c <? 256))) s in
  let s := List.map (fun c => if is_word U c then c else 0x20) s in
  let s := strip (str_lower U s) in
  strip (join_spaces (sort_tokens (split s))).

Definition round_half_even (num den : Z) : Z :=
  let q := (num / den)%Z in
  let r := (num mod den)%Z in
  if (2 * r <? den)%Z then q
  else if (den <? 2 * r)%Z then (q + 1)%Z
  else if Z.even q then q else (q + 1)%Z.

Definition lcs_ratio (s1 s2 : pystr) : Z :=
  if pystr_eqb s1 s2 then 100%Z
  else match s1, s2 with
       | [], _ | _, [] => 0%Z
       | _, _ =>
           round_half_even
             (200 * Z.of_nat (lcs s1 s2))
             (Z.of_nat (length s1 + length s2))
       end.

Definition sample_ratio (a b : pystr) : Z :=
  lcs_ratio (process_and_sort sample_ucd a) (process_and_sort sample_ucd b).

(** ** Auxiliary notions *)

(** A record that is active, or closed and flagged, or neither active nor
    closed, is resolved by the first call. *)
Definition settled (r : sirene_row) : bool :=
  bool_decide (etatAdministratifEtablissement r = Str (lit "A"))
  || negb (bool_decide (etatAdministratifEtablissement r = Str (lit "F")))
  || truthy (etablissementSiege r).

(** The default that the first loop of [update_CRM] gives a field. *)
Definition default_value (k : pystr) : pyval :=
  if bool_decide (k = k_score_match) then PFloat 0 else PCell (Str []).

(** The fields of a CRM record that the main loop reads hold what the
    loaders deliver: the country is a string when present, the company name
    and the city are strings or NaN when present. *)
Definition pays_ok (d : dict) : bool :=
  match d !! k_Pays with
  | None | Some (PCell (Str _)) => true
  | Some _ => false
  end.

Definition text_ok (d : dict) (k : pystr) : bool :=
  match d !! k with
  | None | Some (PCell _) => true
  | Some _ => false
  end.

Definition well_typed (d : dict) : bool :=
  pays_ok d && text_ok d k_Societe && text_ok d k_Ville.

(** The country filter of the main loop. *)
Definition is_france (U : unicode_data) (d : dict) : bool :=
  match get_or_empty d k_Pays with
  | PCell (Str pays) => pystr_eqb (str_upper U (strip pays)) (lit "FRANCE")
  | _ => false
  end.

(** The bucket looked up for a record. *)
Definition bucket_of_client (sirene_by_dept : gmap pystr (list sirene_row))
    (d : dict) : option (list sirene_row) :=
  sirene_by_dept !! take 2 (py_str (get_or_empty d k_CP)).

(** What one iteration of the main loop may do to the store [h] for the
    record at [l]: no other dict is touched, the dict at [l] changes in its
    enrichment fields only and loses no field, and nothing changes when the
    record is skipped. *)
Definition client_step (U : unicode_data)
    (sirene_by_dept : gmap pystr (list sirene_row)) (h h' : heap) (l : nat) : Prop :=
  length h' = length h /\
  (forall l', l' <> l -> h' !! l' = h !! l') /\
  (forall k, k ∉ enrichment_fields -> (h' !!! l) !! k = (h !!! l) !! k) /\
  (forall k, is_Some ((h !!! l) !! k) -> is_Some ((h' !!! l) !! k)) /\
  (is_france U (h !!! l) = false \/ bucket_of_client sirene_by_dept (h !!! l) = None ->
   h' = h).

(** Word structure of a string, as the regular expressions of
    [normalize_name] see it: a character of an ASCII word, the start of a
    separator, and a string cut into separators and maximal words none of
    which is in [excluded]. *)
Definition wordc (U : unicode_data) (c : N) : Prop :=
  is_ascii c = true /\ is_word U c = true.

Definition boundary (U : unicode_data) (rest : pystr) : Prop :=
  match rest with
  | [] => True
  | d :: _ => is_word U d = false
  end.

Inductive clean (U : unicode_data) (excluded : list pystr) : pystr -> Prop :=
  | clean_nil : clean U excluded []
  | clean_sep d r :
      is_word U d = false -> clean U excluded r -> clean U excluded (d :: r)
  | clean_run w rest :
      w <> [] -> Forall (wordc U) w -> boundary U rest -> w ∉ excluded ->
      clean U excluded rest -> clean U excluded (w ++ rest).

(** A string whose only spaces are single U+0020 characters. *)
Fixpoint tidy (s : pystr) : bool :=
  match s with
  | [] => true
  | c :: r =>
      (if isspace c
       then (c =? 0x20) &&
            match r with
            | d :: _ => negb (isspace d)
            | [] => true
            end
       else true) && tidy r
  end.

(** The characters that [sub_punct] keeps. *)
Definition kept_by_sub_punct (U : unicode_data) (c : N) : bool :=
  is_word U c || isspace c || (c =? 0x2D).

(** ** Sample records *)

Definition mk_row (siret_ siren_ nom city cp tranche etat : cell) (siege : pyval)
  : sirene_row :=
  {| siret := siret_; siren := siren_; nom_normalise := nom;
     libelleCommuneEtablissement := city; codePostalEtablissement := cp;
     trancheEffectifsEtablissement := tranche;
     etatAdministratifEtablissement := etat;
     etablissementSiege := siege; dept := None |}.

Definition S_ (s : string) : cell := Str (lit s).

(** Two closed establishments of the company 111111111, neither flagged as
    headquarters, and a headquarters table that lists both: a reference
    cycle, as far as a table searched by SIREN can hold one. *)
Definition cycle_A : sirene_row :=
  mk_row (S_ "11111111100011") (S_ "111111111") (S_ "alpha") (S_ "LYON")
         (S_ "69001") (S_ "11") (S_ "F") (PBool false).
Definition cycle_B : sirene_row :=
  mk_row (S_ "11111111100029") (S_ "111111111") (S_ "alpha") (S_ "PARIS")
         (S_ "75001") (S_ "12") (S_ "F") (PBool false).
Definition cycle_heads : list sirene_row := [cycle_B; cycle_A].

(** An active headquarters, a closed one, and closed branches of each. *)
Definition hq_active : sirene_row :=
  mk_row (S_ "22222222200010") (S_ "222222222") (S_ "beta") (S_ "LYON")
         (S_ "69002") (S_ "21") (S_ "A") (PBool true).
Definition hq_closed : sirene_row :=
  mk_row (S_ "33333333300010") (S_ "333333333") (S_ "gamma") (S_ "LYON")
         (S_ "69003") (S_ "03") (S_ "F") (PBool true).
Definition branch_of_active : sirene_row :=
  mk_row (S_ "22222222200028") (S_ "222222222") (S_ "beta") (S_ "NICE")
         (S_ "06000") (S_ "02") (S_ "F") (PBool false).
Definition branch_orphan : sirene_row :=
  mk_row (S_ "44444444400028") (S_ "444444444") (S_ "delta") (S_ "NICE")
         (S_ "06000") (S_ "02") (S_ "F") (PBool false).
Definition active_12 : sirene_row :=
  mk_row (S_ "55555555500010") (S_ "555555555") (S_ "epsilon") (S_ "NICE")
         (S_ "06000") (S_ "12") (S_ "A") (PBool false).
Definition active_blank : sirene_row :=
  mk_row (S_ "66666666600010") (S_ "666666666") (S_ "zeta") (S_ "NICE")
         (S_ "06000") (Str []) (S_ "A") (PBool false).
Definition sample_heads : list sirene_row := [hq_active; hq_closed].

(** An active establishment whose bracket cell is empty (NaN under
    [dtype=str]), and a closed branch of [hq_active] whose flag is the text
    ['False'], as a table read with [dtype=str] holds it. *)
Definition active_missing : sirene_row :=
  mk_row (S_ "55555555500028") (S_ "555555555") (S_ "epsilon") (S_ "NICE")
         (S_ "06000") NaN (S_ "A") (PBool false).
Definition branch_text_flag : sirene_row :=
  mk_row (S_ "22222222200036") (S_ "222222222") (S_ "beta") (S_ "NICE")
         (S_ "06000") (S_ "02") (S_ "F") (PCell (S_ "False")).

(** Active establishments with a full, a one-character and an empty postal
    code, and a closed one. *)
Definition row_75001 : sirene_row :=
  mk_row (S_ "77777777700010") (S_ "777777777") (S_ "eta") (S_ "PARIS")
         (S_ "75001") (S_ "11") (S_ "A") (PBool true).
Definition row_7 : sirene_row :=
  mk_row (S_ "88888888800010") (S_ "888888888") (S_ "theta") (S_ "PARIS")
         (S_ "7") (S_ "11") (S_ "A") (PBool true).
Definition row_nocp : sirene_row :=
  mk_row (S_ "99999999900010") (S_ "999999999") (S_ "iota") (S_ "PARIS")
         (Str []) (S_ "11") (S_ "A") (PBool true).
Definition sample_registry : list sirene_row :=
  [row_75001; hq_closed; row_7; row_nocp].

(** A query and registry rows for the matcher. *)
Definition acme_name : cell := S_ "ACME Informatique SARL".
Definition acme_city : cell := S_ "Lyon".
Definition row_acme : sirene_row :=
  mk_row (S_ "12345678900012") (S_ "123456789") (S_ "acme informatique")
         (S_ "LYON") (S_ "69002") (S_ "11") (S_ "A") (PBool true).
Definition row_acme_twin : sirene_row :=
  mk_row (S_ "12345678900020") (S_ "123456789") (S_ "acme informatique")
         (S_ "LYON") (S_ "69007") (S_ "03") (S_ "A") (PBool false).
Definition row_far : sirene_row :=
  mk_row (S_ "98765432100015") (S_ "987654321") (S_ "alpha")
         (S_ "PARIS") (S_ "69100") (S_ "01") (S_ "A") (PBool true).
Definition bucket_69 : list sirene_row := [row_far; row_acme; row_acme_twin].

(** CRM records: an Italian customer that already carries a SIRET, the
    customer of the end-to-end scenario, and one whose country cell is
    empty (NaN). *)
Definition rec_italy : dict :=
  <[k_Pays := PCell (S_ "ITALIE")]>
    (<[k_SIRET := PCell (S_ "123")]>
      (<[k_Societe := PCell (S_ "Pasta")]> ∅)).
Definition rec_acme : dict :=
  <[k_Pays := PCell (S_ "France")]>
    (<[k_CP := PCell (S_ "69001")]>
      (<[k_Societe := PCell acme_name]>
        (<[k_Ville := PCell acme_city]> ∅))).
Definition rec_nan_pays : dict :=
  <[k_Pays := PCell NaN]> (<[k_Societe := PCell (S_ "Gamma")]> ∅).
Definition sample_sirene : list sirene_row := [row_far; row_acme; hq_closed].
Definition sample_heap : heap := [rec_italy; rec_acme].
Definition sample_crm_db : list nat := [0%nat; 1%nat].

(** ** The run as a function of each record *)

(** The text of a field of a CRM record, as [normalize_name] receives it. *)
Definition text_field (d : dict) (k : pystr) : cell :=
  match get_or_empty d k with
  | PCell c => c
  | _ => NaN
  end.

(** What a run of [update_CRM] makes of one record, once it has its
    defaults: the five assignments of [remplir_ligne_orion] when the
    record passes the country filter, has a bucket and a candidate is
    accepted; nothing otherwise. *)
Definition enrich_record (U : unicode_data) (ratio : pystr -> pystr -> Z)
    (sirene_by_dept : gmap pystr (list sirene_row)) (d : dict) : dict :=
  if is_france U d then
    match bucket_of_client sirene_by_dept d with
    | Some (r0 :: g) =>
        match match_single_company U ratio (text_field d k_Societe)
                (text_field d k_Ville) (r0 :: g) 100 with
        | Some (Some row, score) =>
            <[k_effectif :=
                PCell (if cell_truthy (trancheEffectifsEtablissement row)
                       then trancheEffectifsEtablissement row else A_PRECISER)]>
              (<[k_score_match := PInt score]>
                (<[k_nom_match_sirene := PCell (nom_normalise row)]>
                  (<[k_SIREN := PCell (siren row)]>
                    (<[k_SIRET := PCell (siret row)]> d))))
        | _ => d
        end
    | _ => d
    end
  else d.

(** ** Loading the tables

    [pd.read_csv] and [pd.read_excel] are outside the repository: a reader
    is taken as what it returns or raises for the path at hand. A table is
    known by its column names and its rows. *)

Record frame := {
  frame_columns : list pystr;
  frame_rows : list (list cell)
}.

(** [df.empty]: one of the two axes has length 0. *)
Definition frame_empty (df : frame) : bool :=
  match frame_columns df, frame_rows df with
  | _ :: _, _ :: _ => false
  | _, _ => true
  end.

Inductive load_exn :=
  | EmptyDataError
  | ParserError
  | UnicodeDecodeError
  | ValueError
  | OtherError.

Inductive outcome (A : Type) :=
  | Returns (a : A)
  | Raises (e : load_exn).
Arguments Returns {A} a.
Arguments Raises {A} e.

(** One turn of the loop of [load_csv]: [None] stands for [continue]. *)
Definition try_separator (read_csv : pystr -> outcome frame) (sep : pystr)
  : option (outcome frame) :=
  match read_csv sep with
  | Returns df =>
      if frame_empty df || (length (frame_columns df) =? 0)%nat
      then None                       (* raise EmptyDataError, caught *)
      else Some (Returns df)
  | Raises EmptyDataError => None
  | Raises e => Some (Raises e)
  end.

Fixpoint load_csv_loop (read_csv : pystr -> outcome frame) (seps : list pystr)
  : outcome frame :=
  match seps with
  | [] => Raises ValueError
  | sep :: seps' =>
      match try_separator read_csv sep with
      | Some r => r
      | None => load_csv_loop read_csv seps'
      end
  end.

Definition separators : list pystr := [lit ","; lit ";"; [0x09]].

(** [load_csv]; [read_csv sep] is [pd.read_csv(path, sep=sep, dtype=str)]. *)
Definition load_csv (read_csv : pystr -> outcome frame) : outcome frame :=
  load_csv_loop read_csv separators.

(** A reading that makes the loop of [load_csv] go on to the next
    separator: an empty table, or [EmptyDataError] from the reader. *)
Definition unreadable (o : outcome frame) : bool :=
  match o with
  | Returns df => frame_empty df
  | Raises EmptyDataError => true
  | Raises _ => false
  end.

(** A reader for a file that reads as a table under [';'] only. *)
Definition sample_frame : frame :=
  {| frame_columns := [lit "siret"; lit "siren"];
     frame_rows := [[S_ "12345678900012"; S_ "123456789"]] |}.
Definition header_only : frame :=
  {| frame_columns := [lit "siret"; lit "siren"]; frame_rows := [] |}.
Definition sample_reader (sep : pystr) : outcome frame :=
  if bool_decide (sep = lit ",") then Returns header_only
  else if bool_decide (sep = lit ";") then Returns sample_frame
  else Raises ParserError.

(** [load_orion]; [ext] is the extension that [os.path.splitext] gives for
    the path, [read_excel] is [pd.read_excel(path, sheet_name=0, dtype=str)]
    and [read_csv] is [pd.read_csv(path, sep=';', dtype=str,
    encoding='latin1')]. *)
Definition load_orion (U : unicode_data) (ext : pystr)
    (read_excel read_csv : outcome frame) : outcome frame :=
  let ext := str_lower U ext in
  let read :=
    if bool_decide (ext ∈ [lit ".xls"; lit ".xlsx"]) then read_excel else read_csv in
  match read with
  | Returns df => if frame_empty df then Raises ValueError else Returns df
  | Raises EmptyDataError | Raises ParserError | Raises UnicodeDecodeError =>
      Raises ValueError
  | Raises e => Raises e
  end.

(** The sample bucket in another order. *)
Definition bucket_69_shuffled : list sirene_row := [row_acme; row_far].
Definition bucket_69_pair : list sirene_row := [row_far; row_acme].

(** A registry row whose SIRET, SIREN and postal code are present: they
    are strings, which [astype(str)] leaves as they are. *)
Definition identified (r : sirene_row) : bool :=
  match siret r, siren r, codePostalEtablissement r with
  | Str _, Str _, Str _ => true
  | _, _, _ => false
  end.

(** Lower and upper case of one ASCII character. *)
Definition ascii_lower (c : N) : N := if is_upper_ascii c then c + 32 else c.
Definition ascii_upper (c : N) : N := if is_lower_ascii c then c - 32 else c.

(** A change of letter case, character by character. *)
Definition recases (g : N -> N) : Prop :=
  forall c, is_ascii c = true ->
    is_ascii (g c) = true /\ isspace (g c) = isspace c /\
    ascii_lower (g c) = ascii_lower c.

(** What [normalize_name] requires of its argument to be idempotent on it:
    no capital letter in the ASCII folding of a string. *)
Definition capital_free (U : unicode_data) (name : cell) : Prop :=
  match name with
  | Str s => Forall (fun c => is_upper_ascii c = false)
                    (ascii_ignore (nfkd U (str_lower U s)))
  | NaN => True
  end.

Definition societe_generale : cell :=
  Str (lit "Soci" ++ [0xE9] ++ lit "t" ++ [0xE9] ++ lit " G" ++ [0xE9] ++ lit "n"
       ++ [0xE9] ++ lit "rale (France) S.A. CEDEX 09").

(** * Properties *)

(** ** The workforce resolver *)

Lemma fill_effectif_unfold fuel r heads :
  fill_effectif (S fuel) r heads =
    if bool_decide (etatAdministratifEtablissement r = Str (lit "A")) then
      Ok (if cell_truthy (trancheEffectifsEtablissement r)
          then trancheEffectifsEtablissement r else A_PRECISER)
    else if bool_decide (etatAdministratifEtablissement r = Str (lit "F")) then
      if truthy (etablissementSiege r) then Ok RADIEE
      else match find_headquarters heads (siren r) with
           | Some siege => fill_effectif fuel siege heads
           | None => Ok A_PRECISER
           end
    else Ok A_PRECISER.
Proof. reflexivity. Qed.

Lemma find_headquarters_elem heads code hq :
  find_headquarters heads code = Some hq ->
  hq ∈ heads /\ cell_str (siren hq) = cell_str code.
Proof.
  unfold find_headquarters. intros H.
  apply find_some in H as [Hin Heq].
  split; [by apply list_elem_of_In|].
  unfold pystr_eqb in Heq. by apply bool_decide_eq_true in Heq.
Qed.

Lemma fill_effectif_settled fuel r heads :
  settled r = true -> exists v, fill_effectif (S fuel) r heads = Ok v.
Proof.
  rewrite fill_effectif_unfold. unfold settled.
  repeat case_bool_decide; simpl; eauto.
  intros ->. eauto.
Qed.

(** The closed branch [cycle_B] is its own headquarters in [cycle_heads]:
    whatever the depth allowed, the call runs out of it. *)
Lemma cycle_B_diverges fuel :
  fill_effectif fuel cycle_B cycle_heads = Raise RecursionError.
Proof.
  induction fuel as [|fuel IH]; [reflexivity|].
  rewrite fill_effectif_unfold.
  change (find_headquarters cycle_heads (siren cycle_B)) with (Some cycle_B).
  exact IH.
Qed.

Lemma cycle_A_diverges fuel :
  fill_effectif fuel cycle_A cycle_heads = Raise RecursionError.
Proof.
  destruct fuel as [|fuel]; [reflexivity|].
  rewrite fill_effectif_unfold.
  change (find_headquarters cycle_heads (siren cycle_A)) with (Some cycle_B).
  apply cycle_B_diverges.
Qed.

(** C1, the claim as stated fails: [cycle_A] and [cycle_B] are two closed
    establishments of one company, neither flagged as headquarters, both
    listed in the headquarters table. The headquarters found for [cycle_A]
    is [cycle_B], and the one found for [cycle_B] is [cycle_B] again: no
    recursion depth lets [fill_effectif] return ['A PRECISER'], or any
    value at all. *)
Lemma C1_cycle_never_returns :
  ~ (exists fuel v, fill_effectif fuel cycle_A cycle_heads = Ok v).
Proof. intros (fuel & v & H). by rewrite cycle_A_diverges in H. Qed.

Lemma find_headquarters_same_company heads (a b : cell) :
  cell_str a = cell_str b ->
  find_headquarters heads a = find_headquarters heads b.
Proof. unfold find_headquarters. by intros ->. Qed.

(** A closed, unflagged row that the table gives as its own headquarters:
    every depth is used up. *)
Lemma fill_effectif_self_headquarters fuel hq heads :
  etatAdministratifEtablissement hq = Str (lit "F") ->
  truthy (etablissementSiege hq) = false ->
  find_headquarters heads (siren hq) = Some hq ->
  fill_effectif fuel hq heads = Raise RecursionError.
Proof.
  intros Hetat Hflag Hfind.
  induction fuel as [|fuel IH]; [reflexivity|].
  rewrite fill_effectif_unfold, Hetat, Hflag, Hfind.
  rewrite bool_decide_eq_false_2 by done.
  by rewrite bool_decide_eq_true_2.
Qed.

(** C1, amended: [fill_effectif] has no depth bound and no check of
    self-reference. For a headquarters table [heads]:
    - when every row of the table is flagged as headquarters (its flag is a
      true value), [fill_effectif] returns a value for every record, after
      at most one recursive call: a depth of two frames is always enough;
    - when the table holds a CLOSED, unflagged row [hq] that
      [find_headquarters] returns for its own SIREN, the resolution of any
      CLOSED, unflagged record [r] of that company (its SIREN reads as that
      of [hq]) returns nothing, whatever the depth allowed: it ends in
      [RecursionError]. *)
Theorem C1_fill_effectif_returns_unless_cycle (heads : list sirene_row) :
  (Forall (fun hq => truthy (etablissementSiege hq) = true) heads ->
   forall (r : sirene_row) (fuel : nat),
     exists v, fill_effectif (2 + fuel) r heads = Ok v) /\
  (forall r hq : sirene_row,
     etatAdministratifEtablissement hq = Str (lit "F") ->
     truthy (etablissementSiege hq) = false ->
     find_headquarters heads (siren hq) = Some hq ->
     etatAdministratifEtablissement r = Str (lit "F") ->
     truthy (etablissementSiege r) = false ->
     cell_str (siren r) = cell_str (siren hq) ->
     forall fuel : nat, fill_effectif fuel r heads = Raise RecursionError).
Proof.
  split.
  - intros Hheads r fuel. change (2 + fuel)%nat with (S (S fuel)).
    rewrite fill_effectif_unfold.
    repeat case_bool_decide; eauto.
    destruct (truthy (etablissementSiege r)); eauto.
    destruct (find_headquarters heads (siren r)) as [hq|] eqn:Hfind; eauto.
    apply find_headquarters_elem in Hfind as [Hin _].
    rewrite Forall_forall in Hheads.
    apply fill_effectif_settled. unfold settled.
    rewrite (Hheads hq Hin). by rewrite orb_true_r.
  - intros r hq Hetat Hflag Hfind Hr Hrflag Hsiren fuel.
    destruct fuel as [|fuel]; [reflexivity|].
    rewrite fill_effectif_unfold, Hr, Hrflag.
    rewrite (find_headquarters_same_company heads _ _ Hsiren), Hfind.
    rewrite bool_decide_eq_false_2 by done.
    rewrite bool_decide_eq_true_2 by done.
    by apply fill_effectif_self_headquarters.
Qed.

Lemma C1_returns_unless_cycle_witness :
  (exists v, fill_effectif (2 + 0) branch_of_active sample_heads = Ok v) /\
  (forall fuel : nat, fill_effectif fuel cycle_A cycle_heads = Raise RecursionError).
Proof.
  split.
  - apply (proj1 (C1_fill_effectif_returns_unless_cycle sample_heads)).
    repeat constructor.
  - apply (proj2 (C1_fill_effectif_returns_unless_cycle cycle_heads)
             cycle_A cycle_B); reflexivity.
Defined.

(** The decision procedure of [fill_effectif] on cells that hold strings,
    for every record, every headquarters table and every depth of at least
    one frame ([truthy] is the truth value Python gives the flag).
    - active, bracket a non-empty string: that bracket;
    - active, bracket the empty string: ['A PRECISER'];
    - closed and a flag that is a true value: ['RADIEE'];
    - closed, a flag that is a false value, a headquarters row found for
      its SIREN: whatever the same procedure gives on that row;
    - closed, a flag that is a false value, no headquarters row:
      ['A PRECISER']. *)
Lemma fill_effectif_cases (fuel : nat) (r : sirene_row) (heads : list sirene_row) :
  (forall s, etatAdministratifEtablissement r = Str (lit "A") ->
     trancheEffectifsEtablissement r = Str s -> s <> [] ->
     fill_effectif (S fuel) r heads = Ok (Str s)) /\
  (etatAdministratifEtablissement r = Str (lit "A") ->
     trancheEffectifsEtablissement r = Str [] ->
     fill_effectif (S fuel) r heads = Ok A_PRECISER) /\
  (etatAdministratifEtablissement r = Str (lit "F") ->
     truthy (etablissementSiege r) = true ->
     fill_effectif (S fuel) r heads = Ok RADIEE) /\
  (forall hq, etatAdministratifEtablissement r = Str (lit "F") ->
     truthy (etablissementSiege r) = false ->
     find_headquarters heads (siren r) = Some hq ->
     fill_effectif (S fuel) r heads = fill_effectif fuel hq heads) /\
  (etatAdministratifEtablissement r = Str (lit "F") ->
     truthy (etablissementSiege r) = false ->
     find_headquarters heads (siren r) = None ->
     fill_effectif (S fuel) r heads = Ok A_PRECISER).
Proof.
  rewrite fill_effectif_unfold.
  repeat split.
  - intros s -> -> Hs. rewrite bool_decide_eq_true_2 by done.
    destruct s; [done|reflexivity].
  - intros -> ->. by rewrite bool_decide_eq_true_2.
  - intros -> ->. done.
  - intros hq -> -> ->. done.
  - intros -> -> ->. done.
Qed.

Example fill_effectif_cases_sample :
  fill_effectif 2 active_12 sample_heads = Ok (S_ "12") /\
  fill_effectif 2 active_blank sample_heads = Ok A_PRECISER /\
  fill_effectif 2 hq_closed sample_heads = Ok RADIEE /\
  fill_effectif 2 branch_of_active sample_heads = Ok (S_ "21") /\
  fill_effectif 2 branch_orphan sample_heads = Ok A_PRECISER.
Proof. by vm_compute. Qed.

(** C3, on the code: two cases of the claim fail on the cells that a table
    read with [dtype=str] holds.
    - An ACTIVE record whose bracket cell is empty holds NaN there, a true
      value in Python: [effectif if effectif else 'A PRECISER'] returns the
      NaN, not ['A PRECISER'].
    - A CLOSED record that is not a headquarters holds the text ['False']
      as its flag, a non-empty string and so a true value: [if est_siege]
      takes it for a headquarters and returns ['RADIEE'], without looking
      up the headquarters of the company. *)
Theorem C3_missing_bracket_and_text_flag
    (fuel : nat) (r : sirene_row) (heads : list sirene_row) :
  (etatAdministratifEtablissement r = Str (lit "A") ->
   trancheEffectifsEtablissement r = NaN ->
   fill_effectif (S fuel) r heads = Ok NaN) /\
  (etatAdministratifEtablissement r = Str (lit "F") ->
   etablissementSiege r = PCell (Str (lit "False")) ->
   fill_effectif (S fuel) r heads = Ok RADIEE).
Proof.
  rewrite fill_effectif_unfold. split.
  - intros -> ->. by rewrite bool_decide_eq_true_2.
  - intros -> ->. rewrite bool_decide_eq_false_2 by done.
    by rewrite bool_decide_eq_true_2.
Qed.

(** The two failing inputs: [active_missing], and [branch_text_flag], a
    closed branch of the active headquarters [hq_active], whose bracket
    ["21"] the claim says is returned. *)
Lemma C3_missing_bracket_witness :
  fill_effectif 2 active_missing sample_heads = Ok NaN /\
  find_headquarters sample_heads (siren branch_text_flag) = Some hq_active /\
  fill_effectif 1 hq_active sample_heads = Ok (S_ "21") /\
  fill_effectif 2 branch_text_flag sample_heads = Ok RADIEE.
Proof.
  split; [|split; [reflexivity|split; [reflexivity|]]].
  - apply (proj1 (C3_missing_bracket_and_text_flag 1 active_missing sample_heads));
      reflexivity.
  - apply (proj2 (C3_missing_bracket_and_text_flag 1 branch_text_flag sample_heads));
      reflexivity.
Defined.

(** ** The blocking index *)

Lemma filter_elem {A} (f : A -> bool) (l : list A) (x : A) :
  x ∈ List.filter f l <-> x ∈ l /\ f x = true.
Proof. rewrite !list_elem_of_In. apply filter_In. Qed.

(** Filling a dict from pairs with distinct keys. *)
Lemma fill_dict_lookup {V} (l : list (pystr * V)) (m0 : gmap pystr V) k v :
  NoDup (l.*1) ->
  foldl (fun m '(d, g) => <[d := g]> m) m0 l !! k = Some v <->
  (k, v) ∈ l \/ ((k ∉ l.*1) /\ m0 !! k = Some v).
Proof.
  revert m0. induction l as [|[d g] l IH]; intros m0 Hnd; simpl.
  - split; [intros H; right; split; [apply not_elem_of_nil|done]|].
    intros [H|[_ H]]; [by apply elem_of_nil in H|done].
  - apply NoDup_cons in Hnd as [Hd Hnd]. rewrite (IH _ Hnd).
    rewrite elem_of_cons, not_elem_of_cons. split.
    + intros [H|[Hk H]]; [by left; right|].
      destruct (decide (d = k)) as [->|Hne].
      * rewrite lookup_insert_eq in H. injection H as ->. by left; left.
      * rewrite lookup_insert_ne in H by done. right. by repeat split.
    + intros [[H|H]|[[Hk Hk'] H]].
      * injection H as -> ->. right. split; [done|]. by rewrite lookup_insert_eq.
      * by left.
      * right. split; [done|]. by rewrite lookup_insert_ne.
Qed.

Lemma groupby_dept_keys df : NoDup ((groupby_dept df).*1).
Proof.
  unfold groupby_dept. rewrite <- list_fmap_compose.
  rewrite (list_fmap_ext _ id) by done.
  rewrite list_fmap_id. apply NoDup_remove_dups.
Qed.

(** A bucket of the index is the list of the rows of that department, and
    exists only when there is such a row. *)
Lemma create_sirene_by_dept_lookup sirene_df k g :
  create_sirene_by_dept sirene_df !! k = Some g <->
  k ∈ omap dept (with_dept <$> List.filter is_active sirene_df) /\
  g = List.filter (fun r => bool_decide (dept r = Some k))
        (with_dept <$> List.filter is_active sirene_df).
Proof.
  unfold create_sirene_by_dept.
  rewrite fill_dict_lookup by apply groupby_dept_keys.
  rewrite lookup_empty. unfold groupby_dept.
  rewrite list_elem_of_fmap. setoid_rewrite elem_of_remove_dups.
  split.
  - intros [(k' & [= -> ->] & Hk)|[_ ?]]; done.
  - intros [Hk ->]. left. by exists k.
Qed.

(** What a row found in a bucket is: the converted copy of an active row
    of the table, keyed by the first two characters of its postal code. *)
Lemma bucket_member sirene_df k g r :
  create_sirene_by_dept sirene_df !! k = Some g -> r ∈ g ->
  exists r0, r0 ∈ sirene_df /\ is_active r0 = true /\ r = with_dept r0 /\
             k = take 2 (cell_str (codePostalEtablissement r0)).
Proof.
  rewrite create_sirene_by_dept_lookup. intros [_ ->] Hr.
  apply filter_elem in Hr as [Hr Hk].
  apply list_elem_of_fmap in Hr as (r0 & -> & Hr0).
  apply filter_elem in Hr0 as [Hr0 Hact].
  apply bool_decide_eq_true in Hk. simpl in Hk. injection Hk as <-.
  by exists r0.
Qed.

Lemma bucket_of_active sirene_df r0 :
  r0 ∈ sirene_df -> is_active r0 = true ->
  exists g,
    create_sirene_by_dept sirene_df
      !! take 2 (cell_str (codePostalEtablissement r0)) = Some g /\
    with_dept r0 ∈ g.
Proof.
  intros Hin Hact. eexists. split.
  - apply create_sirene_by_dept_lookup. split; [|reflexivity].
    apply list_elem_of_omap. exists (with_dept r0). split; [|done].
    apply list_elem_of_fmap. exists r0. split; [done|].
    by apply filter_elem.
  - apply filter_elem. split.
    + apply list_elem_of_fmap. exists r0. split; [done|]. by apply filter_elem.
    + by apply bool_decide_eq_true.
Qed.

Lemma bucket_key_unique sirene_df r0 k g :
  create_sirene_by_dept sirene_df !! k = Some g -> with_dept r0 ∈ g ->
  k = take 2 (cell_str (codePostalEtablissement r0)).
Proof.
  intros Hg Hr.
  destruct (bucket_member _ _ _ _ Hg Hr) as (r1 & _ & _ & Heq & ->).
  apply (f_equal dept) in Heq. simpl in Heq. by injection Heq as ->.
Qed.

(** C2, the claim as stated fails: the active record [row_7], whose postal
    code has one character, is not dropped: it is found in the bucket of
    key ["7"]. *)
Lemma C2_short_code_is_indexed :
  (length (cell_str (codePostalEtablissement row_7)) < 2)%nat /\
  exists k g, create_sirene_by_dept sample_registry !! k = Some g /\
              with_dept row_7 ∈ g.
Proof.
  split; [vm_compute; lia|].
  exists (lit "7"), [with_dept row_7]. split; [by vm_compute|].
  apply list_elem_of_singleton. reflexivity.
Qed.

(** C2, amended: an active record is found in one bucket only, the one
    keyed by the first two characters of its postal code, or by the whole
    code when it has fewer than two: ["75001"] is found under ["75"] only,
    ["7"] under ["7"] only, [""] under [""] only. No record is dropped for a
    short postal code. *)
Theorem C2_bucket_key_is_code_prefix
    (sirene_df : list sirene_row) (r0 : sirene_row) (k : pystr) :
  r0 ∈ sirene_df -> is_active r0 = true ->
  ((exists g, create_sirene_by_dept sirene_df !! k = Some g /\ with_dept r0 ∈ g)
   <-> k = take 2 (cell_str (codePostalEtablissement r0))).
Proof.
  intros Hin Hact. split.
  - intros (g & Hg & Hr). by eapply bucket_key_unique.
  - intros ->. by apply bucket_of_active.
Qed.

Lemma C2_bucket_key_witness :
  (forall k,
     (exists g, create_sirene_by_dept sample_registry !! k = Some g /\
                with_dept row_75001 ∈ g) <-> k = lit "75") /\
  (forall k,
     (exists g, create_sirene_by_dept sample_registry !! k = Some g /\
                with_dept row_7 ∈ g) <-> k = lit "7") /\
  (forall k,
     (exists g, create_sirene_by_dept sample_registry !! k = Some g /\
                with_dept row_nocp ∈ g) <-> k = []).
Proof.
  repeat split.
  - apply (C2_bucket_key_is_code_prefix sample_registry row_75001 k);
      [by apply list_elem_of_In; vm_compute; tauto | reflexivity].
  - apply (C2_bucket_key_is_code_prefix sample_registry row_75001 k);
      [by apply list_elem_of_In; vm_compute; tauto | reflexivity].
  - apply (C2_bucket_key_is_code_prefix sample_registry row_7 k);
      [by apply list_elem_of_In; vm_compute; tauto | reflexivity].
  - apply (C2_bucket_key_is_code_prefix sample_registry row_7 k);
      [by apply list_elem_of_In; vm_compute; tauto | reflexivity].
  - apply (C2_bucket_key_is_code_prefix sample_registry row_nocp k);
      [by apply list_elem_of_In; vm_compute; tauto | reflexivity].
  - apply (C2_bucket_key_is_code_prefix sample_registry row_nocp k);
      [by apply list_elem_of_In; vm_compute; tauto | reflexivity].
Defined.

(** C9: every row found in a bucket of the index is active; a row of the
    table that is active is found in exactly one bucket, the one keyed by
    the first two characters of its postal code; a row that is not active,
    a closed one in particular, is found in none. *)
Theorem C9_buckets_hold_active_rows_once (sirene_df : list sirene_row) :
  (forall k g r, create_sirene_by_dept sirene_df !! k = Some g -> r ∈ g ->
     etatAdministratifEtablissement r = Str (lit "A")) /\
  (forall r0, r0 ∈ sirene_df ->
     etatAdministratifEtablissement r0 = Str (lit "A") ->
     (exists g, create_sirene_by_dept sirene_df
                  !! take 2 (cell_str (codePostalEtablissement r0)) = Some g /\
                with_dept r0 ∈ g) /\
     (forall k g, create_sirene_by_dept sirene_df !! k = Some g ->
        with_dept r0 ∈ g ->
        k = take 2 (cell_str (codePostalEtablissement r0)))) /\
  (forall r0 k g,
     etatAdministratifEtablissement r0 <> Str (lit "A") ->
     create_sirene_by_dept sirene_df !! k = Some g ->
     (r0 ∉ g) /\ (with_dept r0 ∉ g)).
Proof.
  split; [|split].
  - intros k g r Hg Hr.
    destruct (bucket_member _ _ _ _ Hg Hr) as (r0 & _ & Hact & -> & _).
    by apply bool_decide_eq_true in Hact.
  - intros r0 Hin Hact.
    assert (is_active r0 = true) as Hact' by by apply bool_decide_eq_true.
    split; [by apply bucket_of_active|].
    intros k g Hg Hr. by eapply bucket_key_unique.
  - intros r0 k g Hne Hg. split; intros Hr;
      destruct (bucket_member _ _ _ _ Hg Hr) as (r1 & _ & Hact & Heq & _);
      apply bool_decide_eq_true in Hact; apply Hne.
    + by rewrite Heq.
    + apply (f_equal etatAdministratifEtablissement) in Heq. simpl in Heq.
      by rewrite Heq.
Qed.

Lemma C9_buckets_witness :
  (forall k g r, create_sirene_by_dept sample_registry !! k = Some g -> r ∈ g ->
     etatAdministratifEtablissement r = Str (lit "A")) /\
  ((exists g, create_sirene_by_dept sample_registry !! lit "75" = Some g /\
              with_dept row_75001 ∈ g) /\
   (forall k g, create_sirene_by_dept sample_registry !! k = Some g ->
      with_dept row_75001 ∈ g -> k = lit "75")) /\
  (forall k g, create_sirene_by_dept sample_registry !! k = Some g ->
     (hq_closed ∉ g) /\ (with_dept hq_closed ∉ g)).
Proof.
  destruct (C9_buckets_hold_active_rows_once sample_registry) as (H1 & H2 & H3).
  split; [exact H1|]. split.
  - apply (H2 row_75001); [apply list_elem_of_In; vm_compute; tauto|reflexivity].
  - intros k g. by apply (H3 hq_closed k g).
Defined.

(** ** Strings *)

Lemma startswith_refl s : startswith s s = true.
Proof. induction s as [|c s IH]; simpl; [done|]. by rewrite N.eqb_refl. Qed.

Lemma py_in_refl s : py_in s s = true.
Proof. destruct s; simpl; [done|]. by rewrite N.eqb_refl, startswith_refl. Qed.

Lemma pystr_eqb_refl s : pystr_eqb s s = true.
Proof. by apply bool_decide_eq_true. Qed.

Lemma lstrip_app_nonspace l c l' :
  isspace c = false -> lstrip (l ++ c :: l') = lstrip l ++ c :: l'.
Proof.
  intros Hc. induction l as [|d l IH]; simpl.
  - by rewrite Hc.
  - destruct (isspace d); [exact IH|done].
Qed.

(** A stripped string that is not empty starts with a character that is
    not a space. *)
Lemma lstrip_head s c r : lstrip s = c :: r -> isspace c = false.
Proof.
  induction s as [|d s IH]; simpl; [done|].
  destruct (isspace d) eqn:Hd; [exact IH|]. by intros [= <- _].
Qed.

Lemma rstrip_cons_nonspace c r :
  isspace c = false -> exists r', rstrip (c :: r) = c :: r'.
Proof.
  intros Hc. unfold rstrip. simpl.
  rewrite lstrip_app_nonspace by done.
  rewrite rev_app_distr. simpl. eauto.
Qed.

Lemma strip_head s c r : strip s = c :: r -> isspace c = false.
Proof.
  unfold strip. destruct (lstrip s) as [|d t] eqn:Hs.
  - by vm_compute.
  - pose proof (lstrip_head _ _ _ Hs) as Hd.
    destruct (rstrip_cons_nonspace d t Hd) as [r' Hr]. rewrite Hr.
    by intros [= <- _].
Qed.

Lemma strip_cons_nonspace c r :
  isspace c = false -> exists r', strip (c :: r) = c :: r'.
Proof.
  intros Hc. unfold strip. simpl. rewrite Hc. by apply rstrip_cons_nonspace.
Qed.

Lemma split_cons_nonspace c r :
  isspace c = false -> exists w ws, split (c :: r) = (c :: w) :: ws.
Proof.
  intros Hc. simpl. rewrite Hc.
  destruct r as [|d r]; [by eauto|].
  destruct (isspace d); [by eauto|].
  destruct (split (d :: r)); eauto.
Qed.

(** Every character of the result satisfies [P] when those of the
    argument and the space do. *)
Section Preserved.
Variable U : unicode_data.
Variable P : N -> Prop.
Hypothesis P_space : P 0x20.

Lemma sub_parens_Forall inside s : Forall P s -> Forall P (sub_parens inside s).
Proof.
  intros H. revert inside. induction H as [|c s Hc Hs IH]; intros inside; simpl.
  - constructor.
  - destruct inside.
    + destruct (c =? 0x29); apply IH.
    + destruct ((c =? 0x28) && existsb (N.eqb 0x29) s);
        constructor; auto.
Qed.

Lemma sub_words_Forall alts prev skip s :
  Forall P s -> Forall P (sub_words U alts prev skip s).
Proof.
  intros H. revert prev skip. induction H as [|c s Hc Hs IH]; intros prev skip.
  - constructor.
  - cbn [sub_words]. destruct skip; [|apply IH].
    destruct (negb prev && is_word U c); [|constructor; auto].
    destruct (first_alt U alts (c :: s)); constructor; auto.
Qed.

Lemma sub_punct_Forall s : Forall P s -> Forall P (sub_punct U s).
Proof.
  unfold sub_punct. induction 1 as [|c s Hc Hs IH]; simpl; constructor; auto.
  by destruct (is_word U c || isspace c || (c =? 0x2D)).
Qed.

Lemma collapse_spaces_Forall s : Forall P s -> Forall P (collapse_spaces s).
Proof.
  induction 1 as [|c s Hc Hs IH]; simpl; [constructor|].
  destruct (isspace c); [|by constructor].
  destruct s as [|d s]; [by repeat constructor|].
  destruct (isspace d); [done|by constructor].
Qed.

Lemma lstrip_Forall s : Forall P s -> Forall P (lstrip s).
Proof.
  induction 1 as [|c s Hc Hs IH]; simpl; [constructor|].
  destruct (isspace c); [done|by constructor].
Qed.

Lemma strip_Forall s : Forall P s -> Forall P (strip s).
Proof.
  intros H. unfold strip, rstrip.
  apply Forall_rev, lstrip_Forall, Forall_rev. by apply lstrip_Forall.
Qed.
End Preserved.

Lemma ascii_ignore_Forall s : Forall (fun c => is_ascii c = true) (ascii_ignore s).
Proof.
  apply Forall_forall. intros c Hc. unfold ascii_ignore in Hc.
  apply list_elem_of_In, filter_In in Hc. tauto.
Qed.

(** The result of [normalize_name] is made of ASCII characters. *)
Lemma normalize_name_ascii U name :
  Forall (fun c => is_ascii c = true) (normalize_name U name).
Proof.
  unfold normalize_name. destruct name as [s|]; [|constructor].
  destruct (strip s); [constructor|].
  apply strip_Forall, collapse_spaces_Forall; [done|].
  apply sub_words_Forall; [done|]. apply sub_punct_Forall; [done|].
  apply sub_words_Forall; [done|]. apply sub_parens_Forall; [done|].
  apply ascii_ignore_Forall.
Qed.

(** A result of [normalize_name] that is not empty starts with an ASCII
    character that is not a space. *)
Lemma normalize_name_head U name :
  normalize_name U name <> [] ->
  exists c r, normalize_name U name = c :: r /\
              isspace c = false /\ is_ascii c = true.
Proof.
  intros Hne. pose proof (normalize_name_ascii U name) as Hascii.
  destruct (normalize_name U name) as [|c r] eqn:Hn; [done|].
  exists c, r. split; [done|]. split; [|by inversion Hascii].
  unfold normalize_name in Hn. destruct name as [s|]; [|done].
  destruct (strip s); [done|]. by apply strip_head in Hn.
Qed.

Lemma extract_acronym_nonempty c r :
  isspace c = false -> nonempty (extract_acronym (c :: r)) = true.
Proof.
  intros Hc. destruct (split_cons_nonspace c r Hc) as (w & ws & Hs).
  unfold extract_acronym. by rewrite Hs.
Qed.

Lemma str_lower_strip_nonempty U c r :
  isspace c = false -> is_ascii c = true ->
  nonempty (str_lower U (strip (c :: r))) = true.
Proof.
  intros Hc Ha. destruct (strip_cons_nonspace c r Hc) as [r' ->].
  unfold str_lower. simpl. unfold lower_char at 1. by rewrite Ha.
Qed.

(** ** The sample ratio *)

Lemma lcs_cons x a y b :
  lcs (x :: a) (y :: b) =
  if x =? y then S (lcs a b) else Nat.max (lcs a (y :: b)) (lcs (x :: a) b).
Proof. reflexivity. Qed.

Lemma lcs_nil_r a : lcs a [] = O.
Proof. by destruct a. Qed.

Lemma lcs_comm a b : lcs a b = lcs b a.
Proof.
  remember (length a + length b)%nat as n eqn:Hn.
  revert a b Hn. induction n as [n IH] using lt_wf_ind. intros a b Hn.
  destruct a as [|x a]; [by rewrite lcs_nil_r|].
  destruct b as [|y b]; [done|].
  rewrite !lcs_cons, (N.eqb_sym y x). simpl in Hn.
  destruct (x =? y).
  - f_equal. eapply IH; [|reflexivity]. lia.
  - rewrite Nat.max_comm. f_equal; (eapply IH; [|reflexivity]); simpl; lia.
Qed.

Lemma lcs_ratio_comm s t : lcs_ratio s t = lcs_ratio t s.
Proof.
  unfold lcs_ratio, pystr_eqb.
  destruct (decide (s = t)) as [->|Hne]; [done|].
  rewrite !bool_decide_eq_false_2 by congruence.
  destruct s, t; try done.
  by rewrite lcs_comm, Nat.add_comm.
Qed.

Lemma sample_ratio_comm s t : sample_ratio s t = sample_ratio t s.
Proof. apply lcs_ratio_comm. Qed.

Lemma sample_ratio_refl s : sample_ratio s s = 100%Z.
Proof. unfold sample_ratio, lcs_ratio. by rewrite pystr_eqb_refl. Qed.

(** ** Scoring *)

Lemma substring_bonus_comm a b : substring_bonus a b = substring_bonus b a.
Proof. unfold substring_bonus. by rewrite orb_comm. Qed.

Lemma pystr_eqb_comm a b : pystr_eqb a b = pystr_eqb b a.
Proof. unfold pystr_eqb. apply bool_decide_ext. split; congruence. Qed.

(** C6, the claim as stated fails: with the names ["b"] and ["ab c"] the
    acronym of the first occurs in the second but not conversely, and the
    two scores differ. *)
Lemma C6_score_not_symmetric :
  match_score sample_ucd sample_ratio (S_ "b") (S_ "ab c") (S_ "lyon") (S_ "lyon")
  <> match_score sample_ucd sample_ratio (S_ "ab c") (S_ "b") (S_ "lyon") (S_ "lyon").
Proof. by vm_compute. Qed.

(** The same for any Unicode table and any ratio that gives the two names
    the same value in both orders: the scores differ by the 15 points of
    the acronym bonus. *)
Lemma score_asymmetry U ratio x y :
  ratio (lit "b") (lit "ab c") = ratio (lit "ab c") (lit "b") ->
  match_score U ratio (S_ "b") (S_ "ab c") x y
  = (match_score U ratio (S_ "ab c") (S_ "b") x y + 15)%Z.
Proof.
  intros H. unfold match_score. cbn [cell_str S_]. rewrite H.
  change (substring_bonus (lit "b") (lit "ab c")) with 20%Z.
  change (substring_bonus (lit "ab c") (lit "b")) with 20%Z.
  change (acronym_bonus (lit "b") (lit "ab c")) with 15%Z.
  change (acronym_bonus (lit "ab c") (lit "b")) with 0%Z.
  lia.
Qed.

(** C6, amended: for a ratio that is symmetric, the ratio, substring and
    city components of [score(a, b, x, y)] and [score(b, a, x, y)] are the
    same, so the two scores differ by their acronym bonuses only; they are
    equal when the two acronyms are equal, or one of them is empty, or each
    acronym occurs in the other name without its spaces exactly when the
    other does. *)
Theorem C6_score_symmetric_up_to_acronym
    (U : unicode_data) (ratio : pystr -> pystr -> Z) (a b x y : cell) :
  (forall s t, ratio s t = ratio t s) ->
  (match_score U ratio a b x y - acronym_bonus (cell_str a) (cell_str b)
   = match_score U ratio b a x y - acronym_bonus (cell_str b) (cell_str a))%Z /\
  (extract_acronym (cell_str a) = extract_acronym (cell_str b) \/
   extract_acronym (cell_str a) = [] \/ extract_acronym (cell_str b) = [] \/
   py_in (extract_acronym (cell_str a)) (remove_spaces (cell_str b))
   = py_in (extract_acronym (cell_str b)) (remove_spaces (cell_str a)) ->
   match_score U ratio a b x y = match_score U ratio b a x y).
Proof.
  intros Hsym.
  assert (match_score U ratio a b x y - acronym_bonus (cell_str a) (cell_str b)
          = match_score U ratio b a x y - acronym_bonus (cell_str b) (cell_str a))%Z
    as Hdiff.
  { unfold match_score.
    rewrite (Hsym (cell_str a)), (substring_bonus_comm (cell_str a)). lia. }
  split; [exact Hdiff|]. intros Hacro.
  assert (acronym_bonus (cell_str a) (cell_str b)
          = acronym_bonus (cell_str b) (cell_str a)) as Heq; [|lia].
  unfold acronym_bonus.
  rewrite (pystr_eqb_comm (extract_acronym (cell_str b))), (andb_comm (nonempty (extract_acronym (cell_str b)))).
  destruct Hacro as [H|[H|[H|H]]]; rewrite ?H; try done.
  - by rewrite pystr_eqb_refl.
  - by rewrite andb_false_r.
Qed.

Lemma C6_symmetric_witness :
  match_score sample_ucd sample_ratio (S_ "acme info") (S_ "info acme") (S_ "lyon") (S_ "nice")
  = match_score sample_ucd sample_ratio (S_ "info acme") (S_ "acme info") (S_ "lyon") (S_ "nice").
Proof.
  apply (C6_score_symmetric_up_to_acronym sample_ucd sample_ratio
           (S_ "acme info") (S_ "info acme") (S_ "lyon") (S_ "nice")
           sample_ratio_comm).
  right; right; right. reflexivity.
Defined.

(** ** The matcher *)

Section Scan.
Variable U : unicode_data.
Variable ratio : pystr -> pystr -> Z.
Variables name city : pystr.

Let score := row_score U ratio name city.

(** What the loop of [match_single_company] leaves in
    [(best_score, best_match)]: either nothing scored above the initial
    best score and the state is unchanged, or the retained row is the first
    one, in iteration order, to reach the highest score. *)
Lemma scan_spec (l : list sirene_row) (b0 : Z) (m0 : option sirene_row) b m :
  foldl (scan_step U ratio name city) (b0, m0) l = (b, m) ->
  (b = b0 /\ m = m0 /\ forall r, r ∈ l -> (score r <= b0)%Z) \/
  (exists l1 r l2, l = l1 ++ r :: l2 /\ m = Some r /\ b = score r /\ (b0 < b)%Z /\
     (forall r', r' ∈ l1 -> (score r' < b)%Z) /\
     (forall r', r' ∈ l2 -> (score r' <= b)%Z)).
Proof.
  revert b0 m0. induction l as [|r l IH]; intros b0 m0; simpl.
  - intros [= <- <-]. left. repeat split. intros r Hr. by apply elem_of_nil in Hr.
  - unfold scan_step at 2. fold score. simpl.
    destruct (b0 <? score r)%Z eqn:Hlt; intros Hfold; apply IH in Hfold.
    + apply Z.ltb_lt in Hlt.
      destruct Hfold as [(-> & -> & Hall)|(l1 & r2 & l2 & -> & -> & -> & Hb & H1 & H2)].
      * right. exists [], r, l. repeat split; try done.
        intros r' Hr'. by apply elem_of_nil in Hr'.
      * right. exists (r :: l1), r2, l2. repeat split; try done; [lia|].
        intros r' [->|Hr']%elem_of_cons; [done|by apply H1].
    + apply Z.ltb_ge in Hlt.
      destruct Hfold as [(-> & -> & Hall)|(l1 & r2 & l2 & -> & -> & -> & Hb & H1 & H2)].
      * left. repeat split.
        intros r' [->|Hr']%elem_of_cons; [done|by apply Hall].
      * right. exists (r :: l1), r2, l2. repeat split; try done.
        intros r' [->|Hr']%elem_of_cons; [lia|by apply H1].
Qed.

(** In both cases no row scores above the final best score. *)
Lemma scan_upper_bound l b0 m0 b m r :
  foldl (scan_step U ratio name city) (b0, m0) l = (b, m) ->
  r ∈ l -> (score r <= b)%Z.
Proof.
  intros Hfold Hr. apply scan_spec in Hfold.
  destruct Hfold as [(-> & _ & Hall)|(l1 & r2 & l2 & -> & _ & -> & _ & H1 & H2)].
  - by apply Hall.
  - apply elem_of_app in Hr as [Hr|[->|Hr]%elem_of_cons].
    + apply H1 in Hr. lia.
    + lia.
    + by apply H2.
Qed.
End Scan.

Lemma threshold_above_initial (threshold : Q) :
  (-1 < threshold)%Q -> Qle_bool threshold (inject_Z (-1)) = false.
Proof.
  intros H. apply not_true_is_false. intros Hle.
  apply Qle_bool_iff in Hle. by apply Qlt_not_le in H.
Qed.

(** C5, on the code: the best score starts at [-1.0] and a candidate
    replaces it only when strictly greater, while scores go down to [-10]
    through the city penalty. With a threshold of [-1] or less and a bucket
    in which no row scores above [-1], empty or not, the test
    [best_score >= threshold] holds of the initial [-1.0] itself, and the
    function returns the pair [(None, -1.0)]: neither a candidate with its
    score nor [None]. *)
Theorem C5_sentinel_returned_as_match
    (U : unicode_data) (ratio : pystr -> pystr -> Z)
    (client_name client_city : cell) (bucket : list sirene_row) (threshold : Q) :
  (threshold <= -1)%Q ->
  (forall r, r ∈ bucket ->
     (row_score U ratio (normalize_name U client_name)
        (normalize_name U client_city) r <= -1)%Z) ->
  match_single_company U ratio client_name client_city bucket threshold
  = Some (None, (-1)%Z).
Proof.
  intros Hth Hlow. unfold match_single_company.
  destruct (foldl _ _ bucket) as [b m] eqn:Hfold.
  apply scan_spec in Hfold.
  destruct Hfold as [(-> & -> & _)|(l1 & r & l2 & -> & _ & -> & Hb & _)].
  - replace (Qle_bool threshold (inject_Z (-1))) with true; [done|].
    symmetry. by apply Qle_bool_iff.
  - exfalso.
    assert (r ∈ l1 ++ r :: l2) as Hr.
    { apply elem_of_app. right. apply elem_of_cons. by left. }
    specialize (Hlow r Hr). lia.
Qed.

(** The failing input: the threshold [-20] and the one candidate
    [row_far], which scores [-10] and so reaches the threshold. *)
Lemma C5_sentinel_witness :
  row_score sample_ucd sample_ratio
    (normalize_name sample_ucd (S_ "zzz")) (normalize_name sample_ucd (S_ "Lyon"))
    row_far = (-10)%Z /\
  match_single_company sample_ucd sample_ratio (S_ "zzz") (S_ "Lyon")
    [row_far] (-20) = Some (None, (-1)%Z).
Proof.
  split; [by vm_compute|].
  apply (C5_sentinel_returned_as_match sample_ucd sample_ratio
           (S_ "zzz") (S_ "Lyon") [row_far] (-20)).
  - by vm_compute.
  - intros r Hr. apply list_elem_of_In in Hr. simpl in Hr.
    destruct Hr as [<-|[]]. by vm_compute.
Defined.

(** At the thresholds in use, the matcher does what it says. For every
    threshold above [-1] (the initial best score; the default [100.0] in
    particular), every query and every bucket: when [match_single_company] returns a
    pair, its row is the first one of the bucket, in iteration order, that
    reaches the highest score of the bucket, the returned score is that
    score, and it is at least the threshold; when it returns [None], every
    row of the bucket scores below the threshold. *)
Lemma match_single_company_first_best
    (U : unicode_data) (ratio : pystr -> pystr -> Z)
    (client_name client_city : cell) (bucket : list sirene_row) (threshold : Q) :
  (-1 < threshold)%Q ->
  match match_single_company U ratio client_name client_city bucket threshold with
  | Some (Some r, s) =>
      s = row_score U ratio (normalize_name U client_name)
            (normalize_name U client_city) r /\
      (threshold <= inject_Z s)%Q /\
      exists before after, bucket = before ++ r :: after /\
        (forall r', r' ∈ before ->
           (row_score U ratio (normalize_name U client_name)
              (normalize_name U client_city) r' < s)%Z) /\
        (forall r', r' ∈ after ->
           (row_score U ratio (normalize_name U client_name)
              (normalize_name U client_city) r' <= s)%Z)
  | Some (None, _) => False
  | None =>
      forall r, r ∈ bucket ->
        (inject_Z (row_score U ratio (normalize_name U client_name)
                     (normalize_name U client_city) r) < threshold)%Q
  end.
Proof.
  intros Hth. unfold match_single_company.
  destruct (foldl _ _ bucket) as [b m] eqn:Hfold.
  pose proof (fun r => scan_upper_bound _ _ _ _ _ _ _ _ _ r Hfold) as Hmax.
  apply scan_spec in Hfold.
  destruct Hfold as [(-> & -> & Hall)|(l1 & r & l2 & -> & -> & -> & Hb & H1 & H2)].
  - rewrite threshold_above_initial by done.
    intros r Hr. apply (Qle_lt_trans _ (inject_Z (-1))); [|exact Hth].
    rewrite <- Zle_Qle. by apply Hall.
  - destruct (Qle_bool threshold _) eqn:Hle.
    + apply Qle_bool_iff in Hle. split; [done|]. split; [done|].
      by exists l1, l2.
    + intros r' Hr'. eapply Qle_lt_trans.
      * rewrite <- Zle_Qle. apply Hmax, Hr'.
      * apply Qnot_le_lt. intros H. apply Qle_bool_iff in H. congruence.
Qed.

Lemma match_single_company_first_best_sample :
  match match_single_company sample_ucd sample_ratio acme_name acme_city
          bucket_69 100 with
  | Some (Some r, s) =>
      s = row_score sample_ucd sample_ratio (normalize_name sample_ucd acme_name)
            (normalize_name sample_ucd acme_city) r /\
      (100 <= inject_Z s)%Q /\
      exists before after, bucket_69 = before ++ r :: after /\
        (forall r', r' ∈ before ->
           (row_score sample_ucd sample_ratio (normalize_name sample_ucd acme_name)
              (normalize_name sample_ucd acme_city) r' < s)%Z) /\
        (forall r', r' ∈ after ->
           (row_score sample_ucd sample_ratio (normalize_name sample_ucd acme_name)
              (normalize_name sample_ucd acme_city) r' <= s)%Z)
  | Some (None, _) => False
  | None =>
      forall r, r ∈ bucket_69 ->
        (inject_Z (row_score sample_ucd sample_ratio
                     (normalize_name sample_ucd acme_name)
                     (normalize_name sample_ucd acme_city) r) < 100)%Q
  end.
Proof.
  apply (match_single_company_first_best sample_ucd sample_ratio
           acme_name acme_city bucket_69 100).
  reflexivity.
Defined.

(** The matcher on the sample bucket: of the two rows that score 150, the
    first one is returned. *)
Example match_acme :
  match_single_company sample_ucd sample_ratio acme_name acme_city bucket_69 100
  = Some (Some row_acme, 150%Z).
Proof. by vm_compute. Qed.

(** The score of an exact duplicate. *)
Lemma exact_duplicate_score U ratio (n c sc : pystr) (siren_name : cell) :
  (forall s, ratio s s = 100%Z) ->
  n <> [] -> c <> [] ->
  (exists name, n = normalize_name U name) ->
  (exists name, c = normalize_name U name) ->
  siren_name = Str n -> sc = c ->
  match_score U ratio (Str n) siren_name (Str c) (Str sc) = 150%Z.
Proof.
  intros Hrefl Hn Hc [name Hname] [cname Hcname] -> ->.
  unfold match_score. cbn [cell_str]. rewrite Hrefl.
  unfold substring_bonus. rewrite py_in_refl. simpl.
  subst n. destruct (normalize_name_head U name Hn) as (x & r & -> & Hx & _).
  unfold acronym_bonus. rewrite extract_acronym_nonempty, pystr_eqb_refl by done.
  simpl. subst c.
  destruct (normalize_name_head U cname Hc) as (z & t & -> & Hz & Haz).
  unfold city_bonus.
  rewrite str_lower_strip_nonempty, pystr_eqb_refl by done. reflexivity.
Qed.

(** C4: for a ratio that gives 100 to two equal strings, a query whose
    normalised name and city are not empty, and a bucket holding a row with
    that normalised name and a city that normalises to the same: the score
    of that row is exactly 150, and [match_single_company] accepts a
    candidate at the default threshold of 100.0 (a row of the bucket, with
    its score, which is at least 150). *)
Theorem C4_exact_duplicate_scores_150_and_is_accepted
    (U : unicode_data) (ratio : pystr -> pystr -> Z)
    (client_name client_city : cell) (bucket : list sirene_row) (row : sirene_row) :
  (forall s, ratio s s = 100%Z) ->
  normalize_name U client_name <> [] ->
  normalize_name U client_city <> [] ->
  row ∈ bucket ->
  nom_normalise row = Str (normalize_name U client_name) ->
  normalize_name U (libelleCommuneEtablissement row) = normalize_name U client_city ->
  match_score U ratio (Str (normalize_name U client_name)) (nom_normalise row)
    (Str (normalize_name U client_city))
    (Str (normalize_name U (libelleCommuneEtablissement row))) = 150%Z /\
  exists r s,
    match_single_company U ratio client_name client_city bucket 100
    = Some (Some r, s) /\
    r ∈ bucket /\ (150 <= s)%Z /\
    s = row_score U ratio (normalize_name U client_name)
          (normalize_name U client_city) r.
Proof.
  intros Hrefl Hn Hc Hin Hnom Hcity.
  assert (row_score U ratio (normalize_name U client_name)
            (normalize_name U client_city) row = 150%Z) as Hscore.
  { apply exact_duplicate_score; eauto. }
  split; [exact Hscore|].
  unfold match_single_company.
  destruct (foldl _ _ bucket) as [b m] eqn:Hfold.
  pose proof (scan_upper_bound _ _ _ _ _ _ _ _ _ _ Hfold Hin) as Hmax.
  rewrite Hscore in Hmax.
  apply scan_spec in Hfold.
  destruct Hfold as [(-> & _ & _)|(l1 & r & l2 & -> & -> & -> & _ & _ & _)];
    [lia|].
  exists r, (row_score U ratio (normalize_name U client_name)
               (normalize_name U client_city) r).
  replace (Qle_bool 100 _) with true.
  - repeat split; [|done]. apply elem_of_app. right. apply elem_of_cons. by left.
  - symmetry. apply Qle_bool_iff. change 100%Q with (inject_Z 100).
    rewrite <- Zle_Qle. lia.
Qed.

Lemma C4_exact_duplicate_witness :
  match_score sample_ucd sample_ratio
    (Str (normalize_name sample_ucd acme_name)) (nom_normalise row_acme)
    (Str (normalize_name sample_ucd acme_city))
    (Str (normalize_name sample_ucd (libelleCommuneEtablissement row_acme)))
  = 150%Z /\
  exists r s,
    match_single_company sample_ucd sample_ratio acme_name acme_city bucket_69 100
    = Some (Some r, s) /\
    r ∈ bucket_69 /\ (150 <= s)%Z /\
    s = row_score sample_ucd sample_ratio (normalize_name sample_ucd acme_name)
          (normalize_name sample_ucd acme_city) r.
Proof.
  apply (C4_exact_duplicate_scores_150_and_is_accepted sample_ucd sample_ratio
           acme_name acme_city bucket_69 row_acme sample_ratio_refl).
  - by vm_compute.
  - by vm_compute.
  - apply list_elem_of_In. vm_compute. tauto.
  - by vm_compute.
  - by vm_compute.
Defined.

(** ** Normalisation *)

(** C7, on the code: the trade mark sign U+2122 has no lower case and
    decomposes (NFKD) into the capitals [TM]. [normalize_name] lower-cases
    before it decomposes, so it returns ["TM"]; on ["TM"] it returns
    ["tm"]. Normalising twice is not normalising once. *)
Theorem C7_trade_mark_breaks_idempotence (U : unicode_data) :
  ucd_lower U 0x2122 = [0x2122] ->
  ucd_decomp U 0x2122 = [0x54; 0x4D] ->
  normalize_name U (Str [0x2122]) = lit "TM" /\
  normalize_name U (Str (lit "TM")) = lit "tm" /\
  normalize_name U (Str (normalize_name U (Str [0x2122])))
  <> normalize_name U (Str [0x2122]).
Proof.
  intros Hlower Hdecomp.
  assert (normalize_name U (Str [0x2122]) = lit "TM") as H1.
  { unfold normalize_name.
    change (strip [0x2122]) with [0x2122].
    change (str_lower U [0x2122]) with (ucd_lower U 0x2122 ++ []).
    rewrite Hlower. simpl app.
    change (nfkd U [0x2122]) with (ucd_decomp U 0x2122 ++ []).
    rewrite Hdecomp. reflexivity. }
  assert (normalize_name U (Str (lit "TM")) = lit "tm") as H2 by reflexivity.
  split; [exact H1|]. split; [exact H2|].
  rewrite H1, H2. by vm_compute.
Qed.

Lemma C7_trade_mark_witness :
  normalize_name sample_ucd (Str [0x2122]) = lit "TM" /\
  normalize_name sample_ucd (Str (lit "TM")) = lit "tm" /\
  normalize_name sample_ucd (Str (normalize_name sample_ucd (Str [0x2122])))
  <> normalize_name sample_ucd (Str [0x2122]).
Proof.
  apply (C7_trade_mark_breaks_idempotence sample_ucd); reflexivity.
Defined.

(** ** Normalising twice

    On a string whose ASCII folding holds no capital letter, every ASCII
    string in particular, [normalize_name] is idempotent. *)

(** A property of all ASCII characters, checked on each of them. *)
Lemma ascii_cases (f : N -> bool) :
  forallb f (List.map N.of_nat (seq 0 128)) = true ->
  forall c, is_ascii c = true -> f c = true.
Proof.
  intros Hall c Hc. rewrite forallb_forall in Hall. apply Hall.
  apply in_map_iff. exists (N.to_nat c). split; [apply N2Nat.id|].
  apply in_seq. unfold is_ascii in Hc. apply N.ltb_lt in Hc. lia.
Qed.

Section Words.
Variable U : unicode_data.

Lemma wordc_not_space c : wordc U c -> isspace c = false.
Proof.
  intros [Ha Hw].
  pose proof (ascii_cases (fun c => implb (is_word U c) (negb (isspace c)))
                eq_refl c Ha) as H.
  simpl in H. rewrite Hw in H. simpl in H. by apply negb_true_iff.
Qed.

Lemma space_not_word c : isspace c = true -> is_ascii c = true -> is_word U c = false.
Proof.
  intros Hs Ha.
  pose proof (ascii_cases (fun c => implb (isspace c) (negb (is_word U c)))
                eq_refl c Ha) as H.
  simpl in H. rewrite Hs in H. simpl in H. by apply negb_true_iff.
Qed.

Lemma boundary_cons d r : is_word U d = false -> boundary U (d :: r).
Proof. done. Qed.

(** *** Matching a word at the start of a run *)

Lemma word_here_run w a rest :
  Forall (wordc U) w -> Forall (wordc U) a -> boundary U rest ->
  word_here U (w ++ rest) a = bool_decide (a = w).
Proof.
  intros Hw Ha Hrest. revert w Hw.
  induction Ha as [|x a [_ Hx] Ha IH]; intros w Hw.
  - unfold word_here. simpl.
    destruct Hw as [|y w [_ Hy] Hw]; simpl.
    + destruct rest; simpl in *; [done|]. by rewrite Hrest.
    + by rewrite Hy.
  - destruct Hw as [|y w [_ Hy] Hw].
    + simpl. unfold word_here. destruct rest as [|d r]; [done|]. simpl in *.
      destruct (x =? d) eqn:Hxd; [|done].
      apply N.eqb_eq in Hxd. congruence.
    + specialize (IH w Hw). unfold word_here in *. simpl.
      destruct (x =? y) eqn:Hxy.
      * apply N.eqb_eq in Hxy. subst y. simpl. rewrite IH.
        apply bool_decide_ext. split; congruence.
      * simpl. rewrite bool_decide_eq_false_2; [done|].
        intros [= -> _]. by rewrite N.eqb_refl in Hxy.
Qed.

Lemma first_alt_run alts w rest :
  Forall (Forall (wordc U)) alts -> Forall (wordc U) w -> boundary U rest ->
  first_alt U alts (w ++ rest) = if bool_decide (w ∈ alts) then Some w else None.
Proof.
  intros Halts Hw Hrest.
  induction Halts as [|a alts Ha Halts IH]; cbn [first_alt].
  - rewrite bool_decide_eq_false_2; [done|apply not_elem_of_nil].
  - rewrite word_here_run by done.
    destruct (decide (a = w)) as [->|Hne].
    + rewrite bool_decide_eq_true_2 by done.
      rewrite bool_decide_eq_true_2; [done|by left].
    + rewrite bool_decide_eq_false_2 by done. rewrite IH.
      apply (f_equal (fun b : bool => if b then Some w else None)).
      apply bool_decide_ext. rewrite elem_of_cons.
      split; [by right|]. intros [Heq|Hin]; [by subst|done].
Qed.

(** *** [sub_words] along separators and runs *)

Lemma sub_words_sep alts prev d r :
  is_word U d = false ->
  sub_words U alts prev O (d :: r) = d :: sub_words U alts false O r.
Proof. intros Hd. simpl. by rewrite Hd, andb_false_r. Qed.

Lemma sub_words_prev alts rest :
  boundary U rest ->
  sub_words U alts true O rest = sub_words U alts false O rest.
Proof.
  destruct rest as [|d r]; [done|]. intros Hd. simpl in Hd.
  by rewrite !sub_words_sep.
Qed.

Lemma sub_words_inside alts w rest :
  Forall (wordc U) w ->
  sub_words U alts true O (w ++ rest) = w ++ sub_words U alts true O rest.
Proof.
  induction 1 as [|c w [_ Hc] Hw IH]; [done|].
  simpl. rewrite Hc. simpl in IH. by rewrite IH.
Qed.

Lemma sub_words_skip alts prev w rest :
  Forall (wordc U) w ->
  sub_words U alts prev (length w) (w ++ rest)
  = sub_words U alts (match w with [] => prev | _ :: _ => true end) O rest.
Proof.
  intros Hw. revert prev. induction Hw as [|c w [_ Hc] Hw IH]; intros prev; [done|].
  cbn [length app sub_words]. rewrite IH, Hc. by destruct w.
Qed.

Lemma sub_words_run alts w rest :
  Forall (Forall (wordc U)) alts ->
  w <> [] -> Forall (wordc U) w -> boundary U rest ->
  sub_words U alts false O (w ++ rest)
  = (if bool_decide (w ∈ alts) then [0x20] else w)
    ++ sub_words U alts false O rest.
Proof.
  intros Halts Hne Hw Hrest.
  destruct w as [|c w]; [done|].
  pose proof (first_alt_run alts (c :: w) rest Halts Hw Hrest) as Hfirst.
  inversion Hw as [|? ? [_ Hc] Hw']; subst.
  cbn [app sub_words] in *. rewrite Hc. cbn [negb andb]. rewrite Hfirst.
  destruct (bool_decide (c :: w ∈ alts)).
  - cbn [length pred app]. rewrite sub_words_skip by done.
    f_equal. rewrite <- sub_words_prev by done. by destruct w.
  - cbn [app]. f_equal. rewrite sub_words_inside by done.
    by rewrite sub_words_prev.
Qed.

(** *** Strings cut into separators and words *)

Lemma clean_ascii s :
  Forall (fun c => is_ascii c = true) s -> clean U [] s.
Proof.
  induction 1 as [|c s Hc Hs IH]; [constructor|].
  destruct (is_word U c) eqn:Hw; [|by constructor].
  inversion IH as [|d r Hd Hr|w rest Hne Hwd Hb _ Hrest]; subst.
  - apply (clean_run U [] [c] []);
      [done|by repeat constructor|done|apply not_elem_of_nil|constructor].
  - apply (clean_run U [] [c] (d :: r));
      [done|by repeat constructor|done|apply not_elem_of_nil|done].
  - apply (clean_run U [] (c :: w) rest);
      [done|by constructor|done|apply not_elem_of_nil|done].
Qed.

Lemma boundary_sub_words alts rest :
  boundary U rest -> boundary U (sub_words U alts false O rest).
Proof.
  destruct rest as [|d r]; [done|]. simpl. intros Hd. by rewrite Hd.
Qed.

Lemma space_is_sep : is_word U 0x20 = false.
Proof. reflexivity. Qed.

(** [sub_words] leaves a string with none of its alternatives as a word. *)
Lemma sub_words_clean alts s :
  Forall (Forall (wordc U)) alts ->
  clean U [] s -> clean U alts (sub_words U alts false O s).
Proof.
  intros Halts. induction 1 as [|d r Hd Hr IH|w rest Hne Hw Hb _ Hrest IH].
  - constructor.
  - rewrite sub_words_sep by done. by constructor.
  - rewrite sub_words_run by done.
    destruct (decide (w ∈ alts)) as [Hin|Hout].
    + rewrite bool_decide_eq_true_2 by done. simpl.
      constructor; [apply space_is_sep|done].
    + rewrite bool_decide_eq_false_2 by done.
      constructor; try done. by apply boundary_sub_words.
Qed.

(** On such a string [sub_words] changes nothing. *)
Lemma sub_words_id alts s :
  Forall (Forall (wordc U)) alts ->
  clean U alts s -> sub_words U alts false O s = s.
Proof.
  intros Halts. induction 1 as [|d r Hd Hr IH|w rest Hne Hw Hb Hout Hrest IH].
  - done.
  - rewrite sub_words_sep by done. by rewrite IH.
  - rewrite sub_words_run by done.
    rewrite bool_decide_eq_false_2 by done. by rewrite IH.
Qed.

(** The later steps of [normalize_name] keep it so. *)
Lemma sub_words_keeps_clean alts excluded s :
  Forall (Forall (wordc U)) alts ->
  clean U excluded s -> clean U excluded (sub_words U alts false O s).
Proof.
  intros Halts. induction 1 as [|d r Hd Hr IH|w rest Hne Hw Hb Hout Hrest IH].
  - constructor.
  - rewrite sub_words_sep by done. by constructor.
  - rewrite sub_words_run by done.
    destruct (bool_decide (w ∈ alts)).
    + simpl. constructor; [apply space_is_sep|done].
    + constructor; try done. by apply boundary_sub_words.
Qed.

Lemma sub_punct_word w : Forall (wordc U) w -> sub_punct U w = w.
Proof.
  unfold sub_punct. induction 1 as [|c w [_ Hc] Hw IH]; [done|].
  simpl. by rewrite Hc, IH.
Qed.

Lemma sub_punct_sep d :
  is_word U d = false ->
  is_word U (if is_word U d || isspace d || (d =? 0x2D) then d else 0x20) = false.
Proof. intros Hd. by destruct (is_word U d || isspace d || (d =? 0x2D)). Qed.

Lemma sub_punct_keeps_clean excluded s :
  clean U excluded s -> clean U excluded (sub_punct U s).
Proof.
  induction 1 as [|d r Hd Hr IH|w rest Hne Hw Hb Hout Hrest IH].
  - constructor.
  - unfold sub_punct. simpl. constructor; [by apply sub_punct_sep|done].
  - unfold sub_punct in *. rewrite map_app.
    fold (sub_punct U w). rewrite sub_punct_word by done.
    constructor; try done.
    destruct rest as [|d r]; [done|]. simpl. by apply sub_punct_sep.
Qed.

Lemma collapse_spaces_word w rest :
  Forall (wordc U) w -> collapse_spaces (w ++ rest) = w ++ collapse_spaces rest.
Proof.
  induction 1 as [|c w Hc Hw IH]; [done|].
  simpl. rewrite (wordc_not_space c Hc). simpl in IH. by rewrite IH.
Qed.

Lemma collapse_spaces_cons c r :
  collapse_spaces (c :: r) =
  if isspace c then
    match r with
    | d :: _ => if isspace d then collapse_spaces r else 0x20 :: collapse_spaces r
    | [] => [0x20]
    end
  else c :: collapse_spaces r.
Proof. reflexivity. Qed.

Lemma collapse_spaces_head d r :
  isspace d = true -> exists t, collapse_spaces (d :: r) = 0x20 :: t.
Proof.
  revert d. induction r as [|d' r IH]; intros d Hd.
  - simpl. rewrite Hd. eauto.
  - rewrite collapse_spaces_cons, Hd.
    destruct (isspace d') eqn:Hd'; [by apply IH|eauto].
Qed.

Lemma boundary_collapse_spaces rest :
  boundary U rest -> boundary U (collapse_spaces rest).
Proof.
  destruct rest as [|d r]; [done|]. intros Hd.
  destruct (isspace d) eqn:Hs.
  - destruct (collapse_spaces_head d r Hs) as [t ->]. apply space_is_sep.
  - rewrite collapse_spaces_cons, Hs. done.
Qed.

Lemma collapse_spaces_keeps_clean excluded s :
  clean U excluded s -> clean U excluded (collapse_spaces s).
Proof.
  induction 1 as [|d r Hd Hr IH|w rest Hne Hw Hb Hout Hrest IH].
  - constructor.
  - rewrite collapse_spaces_cons. destruct (isspace d).
    + destruct r as [|d' r]; [by repeat constructor|].
      destruct (isspace d'); [done|].
      constructor; [apply space_is_sep|done].
    + by constructor.
  - rewrite collapse_spaces_word by done.
    constructor; try done. by apply boundary_collapse_spaces.
Qed.

Lemma lstrip_keeps_clean excluded s :
  clean U excluded s -> clean U excluded (lstrip s).
Proof.
  induction 1 as [|d r Hd Hr IH|w rest Hne Hw Hb Hout Hrest IH].
  - constructor.
  - simpl. destruct (isspace d); [done|by constructor].
  - destruct Hw as [|c w Hc Hw]; [done|].
    simpl. rewrite (wordc_not_space c Hc).
    by apply (clean_run U excluded (c :: w) rest); try constructor.
Qed.

(** *** Stripping on the right *)

Lemma lstrip_app l l' :
  lstrip (l ++ l') = match lstrip l with
                     | [] => lstrip l'
                     | _ :: _ => lstrip l ++ l'
                     end.
Proof.
  induction l as [|c l IH]; [done|].
  simpl. by destruct (isspace c).
Qed.

Lemma rstrip_cons c r :
  rstrip (c :: r) = match rstrip r with
                    | [] => if isspace c then [] else [c]
                    | _ :: _ => c :: rstrip r
                    end.
Proof.
  unfold rstrip. simpl. rewrite lstrip_app.
  destruct (lstrip (rev r)) as [|x t] eqn:Hr.
  - simpl. by destruct (isspace c).
  - rewrite rev_app_distr. simpl.
    destruct (rev t ++ [x]) eqn:Ht; [|done].
    by apply app_eq_nil in Ht as [_ ?].
Qed.

Lemma rstrip_nonspace c r : isspace c = false -> rstrip (c :: r) = c :: rstrip r.
Proof. intros Hc. rewrite rstrip_cons, Hc. by destruct (rstrip r). Qed.

Lemma rstrip_word w rest :
  Forall (wordc U) w -> rstrip (w ++ rest) = w ++ rstrip rest.
Proof.
  induction 1 as [|c w Hc Hw IH]; [done|].
  simpl. rewrite rstrip_nonspace by by apply wordc_not_space. by rewrite IH.
Qed.

Lemma boundary_rstrip rest : boundary U rest -> boundary U (rstrip rest).
Proof.
  destruct rest as [|d r]; [done|]. intros Hd. rewrite rstrip_cons.
  destruct (rstrip r); [by destruct (isspace d)|done].
Qed.

Lemma rstrip_keeps_clean excluded s :
  clean U excluded s -> clean U excluded (rstrip s).
Proof.
  induction 1 as [|d r Hd Hr IH|w rest Hne Hw Hb Hout Hrest IH].
  - constructor.
  - rewrite rstrip_cons. destruct (rstrip r).
    + destruct (isspace d); by repeat constructor.
    + by constructor.
  - rewrite rstrip_word by done.
    constructor; try done. by apply boundary_rstrip.
Qed.

Lemma strip_keeps_clean excluded s :
  clean U excluded s -> clean U excluded (strip s).
Proof. intros H. by apply rstrip_keeps_clean, lstrip_keeps_clean. Qed.

Lemma lstrip_idem s : lstrip (lstrip s) = lstrip s.
Proof.
  induction s as [|c s IH]; [done|].
  simpl. destruct (isspace c) eqn:Hc; [done|]. simpl. by rewrite Hc.
Qed.

Lemma rstrip_idem s : rstrip (rstrip s) = rstrip s.
Proof. unfold rstrip. by rewrite rev_involutive, lstrip_idem. Qed.

Lemma lstrip_strip s : lstrip (strip s) = strip s.
Proof.
  destruct (strip s) as [|c r] eqn:Hs; [done|].
  apply strip_head in Hs. simpl. by rewrite Hs.
Qed.

Lemma strip_idem s : strip (strip s) = strip s.
Proof.
  unfold strip at 1. rewrite lstrip_strip. unfold strip. apply rstrip_idem.
Qed.

(** *** Single spaces *)

Lemma tidy_cons c r :
  tidy (c :: r) =
  (if isspace c
   then (c =? 0x20) && match r with
                       | d :: _ => negb (isspace d)
                       | [] => true
                       end
   else true) && tidy r.
Proof. reflexivity. Qed.

Lemma tidy_collapse_spaces s : tidy (collapse_spaces s) = true.
Proof.
  induction s as [|c r IH]; [done|].
  rewrite collapse_spaces_cons. destruct (isspace c) eqn:Hc.
  - destruct r as [|d r]; [done|].
    destruct (isspace d) eqn:Hd; [done|].
    rewrite tidy_cons, IH. rewrite collapse_spaces_cons, Hd.
    by rewrite Hd.
  - by rewrite tidy_cons, Hc, IH.
Qed.

Lemma tidy_tail c r : tidy (c :: r) = true -> tidy r = true.
Proof. rewrite tidy_cons. by intros [_ ?]%andb_true_iff. Qed.

Lemma collapse_spaces_tidy s : tidy s = true -> collapse_spaces s = s.
Proof.
  induction s as [|c r IH]; [done|]. intros Ht.
  pose proof (tidy_tail _ _ Ht) as Hr. rewrite tidy_cons in Ht.
  rewrite collapse_spaces_cons. destruct (isspace c) eqn:Hc.
  - apply andb_true_iff in Ht as [[Hsp Hnext]%andb_true_iff _].
    apply N.eqb_eq in Hsp. subst c.
    destruct r as [|d r]; [done|].
    apply negb_true_iff in Hnext. rewrite Hnext. by rewrite IH.
  - by rewrite IH.
Qed.

Lemma tidy_lstrip s : tidy s = true -> tidy (lstrip s) = true.
Proof.
  induction s as [|c r IH]; [done|]. intros Ht.
  simpl. destruct (isspace c); [|done]. by apply IH, (tidy_tail c).
Qed.

Lemma tidy_rstrip s : tidy s = true -> tidy (rstrip s) = true.
Proof.
  induction s as [|c r IH]; [done|]. intros Ht.
  pose proof (IH (tidy_tail _ _ Ht)) as Hr.
  rewrite rstrip_cons. destruct (rstrip r) as [|d t] eqn:Hrs.
  - destruct (isspace c) eqn:Hc; [done|]. by rewrite tidy_cons, Hc.
  - rewrite tidy_cons in Ht |- *. apply andb_true_iff in Ht as [Hhead _].
    apply andb_true_iff. split; [|exact Hr].
    destruct (isspace c); [|done].
    destruct r as [|d' r']; [done|].
    rewrite rstrip_cons in Hrs.
    destruct (rstrip r').
    + destruct (isspace d') eqn:Hd'; [done|]. injection Hrs as <- _.
      by rewrite Hd'.
    + by injection Hrs as <- _.
Qed.

(** *** The character classes left by the pipeline *)

Lemma sub_punct_kept s :
  Forall (fun c => kept_by_sub_punct U c = true) (sub_punct U s).
Proof.
  unfold sub_punct. induction s as [|c s IH]; simpl; constructor; [|done].
  fold (kept_by_sub_punct U c). by destruct (kept_by_sub_punct U c) eqn:Hc.
Qed.

Lemma sub_punct_id s :
  Forall (fun c => kept_by_sub_punct U c = true) s -> sub_punct U s = s.
Proof.
  unfold sub_punct. induction 1 as [|c s Hc Hs IH]; [done|].
  simpl. fold (kept_by_sub_punct U c). by rewrite Hc, IH.
Qed.

Lemma sub_parens_id s :
  Forall (fun c => kept_by_sub_punct U c = true) s -> sub_parens false s = s.
Proof.
  induction 1 as [|c s Hc Hs IH]; [done|].
  simpl. destruct (c =? 0x28) eqn:Hp; [|by rewrite IH].
  apply N.eqb_eq in Hp. by subst c.
Qed.

Lemma str_lower_id s :
  Forall (fun c => is_ascii c = true /\ is_upper_ascii c = false) s ->
  str_lower U s = s.
Proof.
  unfold str_lower. induction 1 as [|c s [Ha Hu] Hs IH]; [done|].
  simpl. unfold lower_char at 1. by rewrite Ha, Hu, IH.
Qed.

Lemma nfkd_id s : Forall (fun c => is_ascii c = true) s -> nfkd U s = s.
Proof.
  unfold nfkd. induction 1 as [|c s Ha Hs IH]; [done|].
  simpl. by rewrite Ha, IH.
Qed.

Lemma ascii_ignore_id s :
  Forall (fun c => is_ascii c = true) s -> ascii_ignore s = s.
Proof.
  unfold ascii_ignore. induction 1 as [|c s Ha Hs IH]; [done|].
  simpl. by rewrite Ha, IH.
Qed.

Lemma cedex_is_word : Forall (Forall (wordc U)) [lit "cedex"].
Proof. repeat constructor. Qed.

Lemma legal_forms_are_words : Forall (Forall (wordc U)) legal_forms.
Proof. repeat constructor. Qed.

(** [normalize_name] is idempotent on every string whose ASCII folding
    (lower case, NFKD, non-ASCII characters dropped) holds no capital
    letter. *)
Theorem normalize_name_idempotent_without_capitals (s : pystr) :
  Forall (fun c => is_upper_ascii c = false)
         (ascii_ignore (nfkd U (str_lower U s))) ->
  normalize_name U (Str (normalize_name U (Str s))) = normalize_name U (Str s).
Proof.
  intros Hcap.
  set (P := fun c => is_ascii c = true /\ is_upper_ascii c = false).
  set (K := fun c => kept_by_sub_punct U c = true).
  set (A := fun c => is_ascii c = true).
  unfold normalize_name at 2 3.
  destruct (strip s) as [|c0 s0]; [reflexivity|].
  set (t0 := ascii_ignore (nfkd U (str_lower U s))) in *.
  set (t1 := sub_parens false t0).
  set (t2 := sub_words U [lit "cedex"] false O t1).
  set (t3 := sub_punct U t2).
  set (t4 := sub_words U legal_forms false O t3).
  set (y := strip (collapse_spaces t4)).
  assert (Forall A t0) as Ha0 by apply ascii_ignore_Forall.
  assert (Forall P t0) as Hp0.
  { apply Forall_forall. intros c Hc. split.
    - by apply (proj1 (Forall_forall _ _) Ha0).
    - by apply (proj1 (Forall_forall _ _) Hcap). }
  assert (Forall A t3) as Ha3.
  { apply sub_punct_Forall; [done|]. apply sub_words_Forall; [done|].
    by apply sub_parens_Forall. }
  assert (Forall P y) as Hpy.
  { apply strip_Forall, collapse_spaces_Forall; [done|].
    apply sub_words_Forall; [done|]. apply sub_punct_Forall; [done|].
    apply sub_words_Forall; [done|]. by apply sub_parens_Forall. }
  assert (Forall A y) as Hay.
  { eapply Forall_impl; [exact Hpy|]. by intros c [? _]. }
  assert (Forall K y) as Hky.
  { apply strip_Forall, collapse_spaces_Forall; [done|].
    apply sub_words_Forall; [done|]. apply sub_punct_kept. }
  assert (clean U [lit "cedex"] y) as Hcedex.
  { apply strip_keeps_clean, collapse_spaces_keeps_clean.
    apply sub_words_keeps_clean; [apply legal_forms_are_words|].
    apply sub_punct_keeps_clean.
    apply sub_words_clean; [apply cedex_is_word|].
    apply clean_ascii. by apply sub_parens_Forall. }
  assert (clean U legal_forms y) as Hlegal.
  { apply strip_keeps_clean, collapse_spaces_keeps_clean.
    apply sub_words_clean; [apply legal_forms_are_words|].
    by apply clean_ascii. }
  assert (tidy y = true) as Hty.
  { apply tidy_rstrip, tidy_lstrip, tidy_collapse_spaces. }
  assert (strip y = y) as Hsy by apply strip_idem.
  unfold normalize_name. rewrite Hsy.
  destruct y as [|c1 y1] eqn:Hy; [reflexivity|]. rewrite <- Hy in *.
  rewrite (str_lower_id y Hpy), (nfkd_id y Hay), (ascii_ignore_id y Hay).
  rewrite (sub_parens_id y Hky).
  rewrite (sub_words_id [lit "cedex"] y cedex_is_word Hcedex).
  rewrite (sub_punct_id y Hky).
  rewrite (sub_words_id legal_forms y legal_forms_are_words Hlegal).
  rewrite (collapse_spaces_tidy y Hty). exact Hsy.
Qed.

Lemma lower_char_ascii c :
  is_ascii c = true ->
  Forall (fun c => is_ascii c = true /\ is_upper_ascii c = false) (lower_char U c).
Proof.
  intros Ha. unfold lower_char. rewrite Ha. constructor; [|constructor].
  pose proof (ascii_cases
    (fun c => let l := if is_upper_ascii c then c + 32 else c in
              is_ascii l && negb (is_upper_ascii l)) eq_refl c Ha) as H.
  simpl in H. apply andb_true_iff in H as [H1 H2].
  by apply negb_true_iff in H2.
Qed.

(** In particular it is idempotent on every ASCII string. *)
Corollary normalize_name_idempotent_ascii (s : pystr) :
  Forall (fun c => is_ascii c = true) s ->
  normalize_name U (Str (normalize_name U (Str s))) = normalize_name U (Str s).
Proof.
  intros Ha. apply normalize_name_idempotent_without_capitals.
  assert (Forall (fun c => is_ascii c = true /\ is_upper_ascii c = false)
                 (str_lower U s)) as Hl.
  { unfold str_lower. induction Ha as [|c s Hc Hs IH]; [constructor|].
    simpl. apply Forall_app. split; [by apply lower_char_ascii|done]. }
  rewrite nfkd_id, ascii_ignore_id.
  - eapply Forall_impl; [exact Hl|]. by intros c [_ ?].
  - eapply Forall_impl; [exact Hl|]. by intros c [? _].
  - eapply Forall_impl; [exact Hl|]. by intros c [? _].
Qed.
End Words.

(** ** The orchestrator *)

Ltac key_discr :=
  match goal with
  | H : ?a = ?b |- _ => vm_compute in H; discriminate H
  end.

Lemma setdefault_lookup (k : pystr) (v : pyval) (d : dict) (k' : pystr) :
  setdefault k v d !! k' =
  if decide (k = k') then Some (default v (d !! k)) else d !! k'.
Proof.
  unfold setdefault. destruct (d !! k) eqn:Hk; case_decide; subst;
    rewrite ?Hk, ?lookup_insert_eq, ?lookup_insert_ne by done; done.
Qed.

Lemma new_record_other (d : dict) (k : pystr) :
  k ∉ enrichment_fields -> new_record d !! k = d !! k.
Proof.
  intros Hk. unfold new_record. rewrite !setdefault_lookup.
  repeat case_decide; try done; subst; exfalso; apply Hk;
    apply list_elem_of_In; simpl; tauto.
Qed.

Lemma new_record_field (d : dict) (k : pystr) :
  k ∈ enrichment_fields ->
  new_record d !! k = Some (default (default_value k) (d !! k)).
Proof.
  intros Hk. unfold new_record, enrichment_fields in *.
  rewrite !setdefault_lookup.
  repeat (apply elem_of_cons in Hk as [->|Hk]);
    [..|by apply elem_of_nil in Hk];
    repeat case_decide; try done; try key_discr.
Qed.

Lemma copy_records_acc h acc out crm_db :
  Forall (fun l => l < length h)%nat crm_db ->
  foldl (fun '(h, crm_updated) rec =>
           (h ++ [new_record (h !!! rec)], crm_updated ++ [length h]))
        (h ++ acc, out) crm_db
  = (h ++ acc ++ ((fun l => new_record (h !!! l)) <$> crm_db),
     out ++ seq (length h + length acc) (length crm_db)).
Proof.
  intros Hvalid. revert acc out.
  induction Hvalid as [|l crm_db Hl _ IH]; intros acc out; simpl.
  - by rewrite !app_nil_r.
  - rewrite lookup_total_app_l by done.
    rewrite <- (app_assoc h acc), IH.
    rewrite !length_app. simpl.
    rewrite <- !app_assoc. simpl.
    by rewrite Nat.add_1_r, Nat.add_succ_r.
Qed.

(** The first loop: the store grows by one fresh dict per record, the copy
    with its defaults; the dicts of the caller stay where they are. *)
Lemma copy_records_spec h crm_db :
  Forall (fun l => l < length h)%nat crm_db ->
  copy_records h crm_db
  = (h ++ ((fun l => new_record (h !!! l)) <$> crm_db),
     seq (length h) (length crm_db)).
Proof.
  intros Hvalid. unfold copy_records.
  pose proof (copy_records_acc h [] [] crm_db Hvalid) as H.
  rewrite app_nil_r in H. simpl in H. by rewrite Nat.add_0_r in H.
Qed.

Lemma match_single_company_row U ratio name city bucket (threshold : Q) m s :
  (-1 < threshold)%Q ->
  match_single_company U ratio name city bucket threshold = Some (m, s) ->
  exists r, m = Some r /\ r ∈ bucket.
Proof.
  intros Hth. unfold match_single_company.
  destruct (foldl _ _ bucket) as [b m'] eqn:Hfold.
  apply scan_spec in Hfold.
  destruct Hfold as [(-> & -> & _)|(l1 & r & l2 & -> & -> & -> & _)].
  - by rewrite threshold_above_initial.
  - destruct (Qle_bool _ _); [|done]. intros [= <- <-].
    exists r. split; [done|]. apply elem_of_app. right. apply elem_of_cons. by left.
Qed.

Lemma fill_effectif_bucket_row fuel sirene_df k g r heads :
  create_sirene_by_dept sirene_df !! k = Some g -> r ∈ g ->
  exists v, fill_effectif (S fuel) r heads = Ok v.
Proof.
  intros Hg Hr.
  destruct (bucket_member _ _ _ _ Hg Hr) as (r0 & _ & Hact & -> & _).
  apply fill_effectif_settled. unfold settled. simpl.
  unfold is_active in Hact. by rewrite Hact.
Qed.

(** [remplir_ligne_orion] replaces the dict of the record by one that
    differs in the five enrichment fields only. *)
Lemma remplir_ligne_orion_spec (fuel : nat) (h : heap) (cu : list nat) (i : nat)
    (row : sirene_row) (heads : list sirene_row) (nm : cell) (sc : Z) (l : nat) :
  cu !! i = Some l ->
  (exists v, fill_effectif fuel row heads = Ok v) ->
  exists d', remplir_ligne_orion fuel h cu i row heads nm sc = Ok (<[l := d']> h) /\
    (forall k, k ∉ enrichment_fields -> d' !! k = (h !!! l) !! k) /\
    (forall k, is_Some ((h !!! l) !! k) -> is_Some (d' !! k)).
Proof.
  intros Hl [v Hv]. unfold remplir_ligne_orion. rewrite Hl, Hv. simpl.
  eexists. split; [reflexivity|]. split.
  - intros k Hk.
    rewrite !lookup_insert_ne; [done|intros <-; apply Hk; apply list_elem_of_In; simpl; tauto..].
  - intros k Hk. rewrite !lookup_insert.
    repeat case_decide; eauto.
Qed.

Lemma pays_ok_as_str (U : unicode_data) (d : dict) :
  pays_ok d = true ->
  exists pays, as_str (get_or_empty d k_Pays) = Ok pays /\
    is_france U d = pystr_eqb (str_upper U (strip pays)) (lit "FRANCE").
Proof.
  unfold pays_ok, is_france, get_or_empty.
  destruct (d !! k_Pays) as [[[pays|]| | |]|]; try done; simpl; eauto.
Qed.

Lemma text_ok_as_text (d : dict) (k : pystr) :
  text_ok d k = true -> exists c, as_text (get_or_empty d k) = Ok c.
Proof.
  unfold text_ok, get_or_empty.
  destruct (d !! k) as [[c| | |]|]; try done; simpl; eauto.
Qed.

Section Run.
Variable U : unicode_data.
Variable ratio : pystr -> pystr -> Z.
Variable sirene_df : list sirene_row.
Variable heads : list sirene_row.
Variable fuel : nat.

Lemma client_step_refl (h : heap) (l : nat) :
  client_step U (create_sirene_by_dept sirene_df) h h l.
Proof. unfold client_step. by eauto 10. Qed.

(** One iteration of the main loop on a well-typed record: it does not
    raise, touches no other dict of the store, changes the five enrichment
    fields only, removes no field, and changes nothing at all when the
    record is skipped. *)
Lemma update_client_spec (cu : list nat) (h : heap) (i l : nat) :
  cu !! i = Some l ->
  well_typed (h !!! l) = true ->
  exists h',
    update_client U ratio (S fuel) heads (create_sirene_by_dept sirene_df)
      cu h i l = Ok h' /\
    client_step U (create_sirene_by_dept sirene_df) h h' l.
Proof.
  intros Hl Hwt.
  unfold well_typed in Hwt.
  apply andb_true_iff in Hwt as [[Hpays Hname]%andb_true_iff Hcity].
  destruct (pays_ok_as_str U _ Hpays) as (pays & Hp & Hfr).
  destruct (text_ok_as_text _ _ Hname) as (c1 & Hc1).
  destruct (text_ok_as_text _ _ Hcity) as (c2 & Hc2).
  unfold update_client. rewrite Hp. cbn [bind].
  rewrite <- Hfr.
  destruct (is_france U (h !!! l)) eqn:Hf; cbn [negb];
    [|eexists; split; [reflexivity|apply client_step_refl]].
  fold (bucket_of_client (create_sirene_by_dept sirene_df) (h !!! l)).
  destruct (bucket_of_client _ _) as [[|r0 g]|] eqn:Hb;
    [eexists; split; [reflexivity|apply client_step_refl]| |
     eexists; split; [reflexivity|apply client_step_refl]].
  rewrite Hc1, Hc2. cbn [bind].
  destruct (match_single_company _ _ _ _ _ _) as [[m s]|] eqn:Hm;
    [|eexists; split; [reflexivity|apply client_step_refl]].
  apply match_single_company_row in Hm as (row & -> & Hrow); [|reflexivity].
  destruct (remplir_ligne_orion_spec (S fuel) h cu i row heads
              (nom_normalise row) s l Hl
              (fill_effectif_bucket_row fuel sirene_df _ _ row heads Hb Hrow))
    as (d' & -> & Hother & Hsome).
  eexists. split; [reflexivity|].
  unfold client_step. rewrite Hf, Hb.
  split; [by rewrite length_insert|].
  split; [intros l' Hne; by rewrite list_lookup_insert_ne|].
  destruct (decide (l < length h)%nat) as [Hlt|Hge].
  - rewrite list_lookup_total_insert_eq by done.
    repeat split; try done; intros [?|?]; done.
  - rewrite list_insert_ge by lia.
    repeat split; try done; intros [?|?]; done.
Qed.

Lemma lookup_total_eq (h h' : heap) (l : nat) :
  h' !! l = h !! l -> h' !!! l = h !!! l.
Proof. intros H. by rewrite !list_lookup_total_alt, H. Qed.

(** The main loop over the records [rest], from position [i] on. *)
Lemma update_loop_spec (cu : list nat) (rest : list nat) :
  forall (i : nat) (h : heap),
  NoDup rest ->
  (forall j l, rest !! j = Some l -> cu !! (i + j)%nat = Some l) ->
  (forall l, l ∈ rest -> well_typed (h !!! l) = true) ->
  exists h',
    update_loop U ratio (S fuel) heads (create_sirene_by_dept sirene_df)
      cu h i rest = Ok h' /\
    length h' = length h /\
    (forall l, l ∉ rest -> h' !! l = h !! l) /\
    (forall l, l ∈ rest ->
       (forall k, k ∉ enrichment_fields -> (h' !!! l) !! k = (h !!! l) !! k) /\
       (forall k, is_Some ((h !!! l) !! k) -> is_Some ((h' !!! l) !! k)) /\
       (is_france U (h !!! l) = false \/
        bucket_of_client (create_sirene_by_dept sirene_df) (h !!! l) = None ->
        h' !!! l = h !!! l)).
Proof.
  induction rest as [|l rest' IH]; intros i h Hnd Hidx Hwt.
  - exists h. repeat split; try done. all: intros l Hl; by apply elem_of_nil in Hl.
  - apply NoDup_cons in Hnd as [Hl Hnd].
    destruct (update_client_spec cu h i l) as (h1 & Hstep & Hlen1 & Hoth1 & Hfr1 & Hsome1 & Hskip1).
    { rewrite <- (Nat.add_0_r i). by apply Hidx. }
    { apply Hwt. by left. }
    assert (forall l', l' ∈ rest' -> h1 !!! l' = h !!! l') as Hsame.
    { intros l' Hl'. apply lookup_total_eq, Hoth1. by intros ->. }
    destruct (IH (S i) h1 Hnd) as (h' & Hloop & Hlen & Hout & Hin).
    { intros j l' Hj. rewrite Nat.add_succ_l, <- Nat.add_succ_r. by apply Hidx. }
    { intros l' Hl'. rewrite Hsame by done. apply Hwt. by right. }
    exists h'. cbn [update_loop]. rewrite Hstep. cbn [bind].
    split; [exact Hloop|]. split; [congruence|]. split.
    + intros l0 [Hne Hl0]%not_elem_of_cons. rewrite Hout by done. by apply Hoth1.
    + intros l0 [->|Hl0]%elem_of_cons.
      * rewrite (lookup_total_eq h1 h' l) by by apply Hout.
        repeat split; try done. intros Hs. by rewrite (Hskip1 Hs).
      * destruct (Hin l0 Hl0) as (Ha & Hb & Hc).
        rewrite Hsame in Ha, Hb, Hc by done. done.
Qed.
End Run.

Lemma new_record_well_typed (d : dict) : well_typed (new_record d) = well_typed d.
Proof.
  unfold well_typed, pays_ok, text_ok.
  rewrite !new_record_other; [done|intros H; apply list_elem_of_In in H; simpl in H;
    repeat destruct H as [H|H]; try done; key_discr..].
Qed.

Lemma new_record_is_france (U : unicode_data) (d : dict) :
  is_france U (new_record d) = is_france U d.
Proof.
  unfold is_france, get_or_empty.
  rewrite !new_record_other; [done|intros H; apply list_elem_of_In in H; simpl in H;
    repeat destruct H as [H|H]; try done; key_discr].
Qed.

Lemma new_record_bucket (m : gmap pystr (list sirene_row)) (d : dict) :
  bucket_of_client m (new_record d) = bucket_of_client m d.
Proof.
  unfold bucket_of_client, get_or_empty.
  rewrite !new_record_other; [done|intros H; apply list_elem_of_In in H; simpl in H;
    repeat destruct H as [H|H]; try done; key_discr].
Qed.

(** The whole run on well-typed records: [update_CRM] returns; the
    returned list names one fresh dict per input record, in order; the
    dicts of the caller are untouched; each returned dict is the copy with
    its defaults, changed at most in the five enrichment fields, and not
    changed at all when the record is skipped. *)
Lemma update_CRM_spec (U : unicode_data) (ratio : pystr -> pystr -> Z)
    (fuel : nat) (sirene_df : list sirene_row) (h : heap) (crm_db : list nat) :
  Forall (fun l => l < length h)%nat crm_db ->
  Forall (fun l => well_typed (h !!! l) = true) crm_db ->
  exists h',
    update_CRM U ratio (S fuel) sirene_df h crm_db
    = Ok (h', seq (length h) (length crm_db)) /\
    (forall l, (l < length h)%nat -> h' !! l = h !! l) /\
    (forall i l, crm_db !! i = Some l ->
       (forall k, k ∉ enrichment_fields ->
          (h' !!! (length h + i)%nat) !! k = (h !!! l) !! k) /\
       (forall k, k ∈ enrichment_fields ->
          is_Some ((h' !!! (length h + i)%nat) !! k)) /\
       (is_france U (h !!! l) = false \/
        bucket_of_client (create_sirene_by_dept sirene_df) (h !!! l) = None ->
        h' !!! (length h + i)%nat = new_record (h !!! l))).
Proof.
  intros Hvalid Hwt. unfold update_CRM.
  rewrite copy_records_spec by done.
  set (h1 := h ++ ((fun l => new_record (h !!! l)) <$> crm_db)).
  set (cu := seq (length h) (length crm_db)).
  assert (forall i l, crm_db !! i = Some l ->
            h1 !!! (length h + i)%nat = new_record (h !!! l)) as Hcopy.
  { intros i l Hi. unfold h1. apply list_lookup_total_correct.
    rewrite lookup_app_r by lia.
    replace (length h + i - length h)%nat with i by lia.
    by rewrite list_lookup_fmap, Hi. }
  destruct (update_loop_spec U ratio sirene_df
              (List.filter (fun r => eq_True (etablissementSiege r)) sirene_df)
              fuel cu cu O h1) as (h' & Hloop & Hlen & Hout & Hin).
  { apply NoDup_seq. }
  { by intros j l Hj. }
  { intros l Hl. unfold cu in Hl. apply elem_of_seq in Hl.
    destruct (lookup_lt_is_Some_2 crm_db (l - length h)) as [l0 Hl0]; [lia|].
    replace l with (length h + (l - length h))%nat by lia.
    rewrite (Hcopy _ _ Hl0), new_record_well_typed.
    rewrite Forall_forall in Hwt. apply Hwt.
    by apply list_elem_of_lookup_2 in Hl0. }
  exists h'. rewrite Hloop. cbn [bind]. split; [done|]. split.
  - intros l Hl. rewrite Hout.
    + unfold h1. by rewrite lookup_app_l.
    + unfold cu. rewrite elem_of_seq. lia.
  - intros i l Hi.
    assert ((length h + i)%nat ∈ cu) as Hmem.
    { unfold cu. apply elem_of_seq. apply lookup_lt_Some in Hi. lia. }
    destruct (Hin _ Hmem) as (Ha & Hb & Hc).
    rewrite (Hcopy _ _ Hi) in Ha, Hb, Hc.
    rewrite new_record_is_france, new_record_bucket in Hc.
    split; [|split; [|exact Hc]].
    + intros k Hk. by rewrite Ha, new_record_other.
    + intros k Hk. apply Hb. by rewrite new_record_field.
Qed.

(** C8, the claim as stated fails: the Italian record is skipped by the
    country filter, yet its SIRET field does not end the run with the
    default (the empty string): it had a value, ["123"], which
    [setdefault] keeps. *)
Lemma C8_existing_field_is_kept :
  is_france sample_ucd rec_italy = false /\
  default_value k_SIRET = PCell (Str []) /\
  exists h' l',
    update_CRM sample_ucd sample_ratio 1 sample_sirene [rec_italy] [0%nat]
    = Ok (h', [l']) /\
    (h' !!! l') !! k_SIRET = Some (PCell (S_ "123")).
Proof.
  split; [by vm_compute|]. split; [by vm_compute|].
  eexists _, _. split; by vm_compute.
Qed.

(** C8, amended: on records whose country is a string when present (and
    whose name and city are text), the first loop of [update_CRM] gives
    every record each of the five enrichment fields it does not have yet,
    with its default (the empty string, 0.0 for the score), and keeps the
    fields it has; the run returns, every returned record has the five
    fields, and a record skipped by the country filter or left without a
    bucket ends the run with, in each enrichment field, the value it came
    with or else the default. *)
Theorem C8_skipped_records_keep_initial_fields
    (U : unicode_data) (ratio : pystr -> pystr -> Z) (fuel : nat)
    (sirene_df : list sirene_row) (h : heap) (crm_db : list nat) :
  Forall (fun l => l < length h)%nat crm_db ->
  Forall (fun l => well_typed (h !!! l) = true) crm_db ->
  (forall i l, crm_db !! i = Some l ->
     exists l0, (copy_records h crm_db).2 !! i = Some l0 /\
       forall k, k ∈ enrichment_fields ->
         ((copy_records h crm_db).1 !!! l0) !! k
         = Some (default (default_value k) ((h !!! l) !! k))) /\
  exists h' out,
    update_CRM U ratio (S fuel) sirene_df h crm_db = Ok (h', out) /\
    length out = length crm_db /\
    forall i l, crm_db !! i = Some l ->
      exists l', out !! i = Some l' /\
        (forall k, k ∈ enrichment_fields -> is_Some ((h' !!! l') !! k)) /\
        (is_france U (h !!! l) = false \/
         bucket_of_client (create_sirene_by_dept sirene_df) (h !!! l) = None ->
         forall k, k ∈ enrichment_fields ->
           (h' !!! l') !! k = Some (default (default_value k) ((h !!! l) !! k))).
Proof.
  intros Hvalid Hwt. split.
  - intros i l Hi. rewrite copy_records_spec by done. simpl.
    exists (length h + i)%nat. split.
    + apply lookup_seq. split; [done|]. by apply lookup_lt_Some in Hi.
    + intros k Hk.
      rewrite lookup_total_app_r by lia.
      replace (length h + i - length h)%nat with i by lia.
      rewrite (list_lookup_total_correct _ i (new_record (h !!! l)))
        by by rewrite list_lookup_fmap, Hi.
      by apply new_record_field.
  - destruct (update_CRM_spec U ratio fuel sirene_df h crm_db Hvalid Hwt)
      as (h' & Hrun & _ & Hrec).
    exists h', (seq (length h) (length crm_db)).
    split; [exact Hrun|]. split; [apply length_seq|].
    intros i l Hi. exists (length h + i)%nat.
    destruct (Hrec i l Hi) as (_ & Hsome & Hskip).
    split; [apply lookup_seq; split; [done|]; by apply lookup_lt_Some in Hi|].
    split; [exact Hsome|].
    intros Hs k Hk. rewrite (Hskip Hs). by apply new_record_field.
Qed.

Lemma C8_skipped_witness :
  (forall i l, sample_crm_db !! i = Some l ->
     exists l0, (copy_records sample_heap sample_crm_db).2 !! i = Some l0 /\
       forall k, k ∈ enrichment_fields ->
         ((copy_records sample_heap sample_crm_db).1 !!! l0) !! k
         = Some (default (default_value k) ((sample_heap !!! l) !! k))) /\
  exists h' out,
    update_CRM sample_ucd sample_ratio 1 sample_sirene sample_heap sample_crm_db
    = Ok (h', out) /\
    length out = length sample_crm_db /\
    forall i l, sample_crm_db !! i = Some l ->
      exists l', out !! i = Some l' /\
        (forall k, k ∈ enrichment_fields -> is_Some ((h' !!! l') !! k)) /\
        (is_france sample_ucd (sample_heap !!! l) = false \/
         bucket_of_client (create_sirene_by_dept sample_sirene) (sample_heap !!! l)
         = None ->
         forall k, k ∈ enrichment_fields ->
           (h' !!! l') !! k
           = Some (default (default_value k) ((sample_heap !!! l) !! k))).
Proof.
  apply (C8_skipped_records_keep_initial_fields sample_ucd sample_ratio 0
           sample_sirene sample_heap sample_crm_db).
  - repeat constructor.
  - repeat constructor.
Defined.

(** The frame of a run on well-typed records: [update_CRM] returns a list
    of the same length, in the same order; the dicts it names are fresh, so
    the dicts of the caller are not mutated; and a returned dict agrees
    with its input record on every field other than the five enrichment
    fields. *)
Lemma update_CRM_frame
    (U : unicode_data) (ratio : pystr -> pystr -> Z) (fuel : nat)
    (sirene_df : list sirene_row) (h : heap) (crm_db : list nat) :
  Forall (fun l => l < length h)%nat crm_db ->
  Forall (fun l => well_typed (h !!! l) = true) crm_db ->
  exists h' out,
    update_CRM U ratio (S fuel) sirene_df h crm_db = Ok (h', out) /\
    length out = length crm_db /\
    (forall l, (l < length h)%nat -> h' !! l = h !! l) /\
    forall i l, crm_db !! i = Some l ->
      exists l', out !! i = Some l' /\ (length h <= l')%nat /\
        forall k, k ∉ enrichment_fields -> (h' !!! l') !! k = (h !!! l) !! k.
Proof.
  intros Hvalid Hwt.
  destruct (update_CRM_spec U ratio fuel sirene_df h crm_db Hvalid Hwt)
    as (h' & Hrun & Hold & Hrec).
  exists h', (seq (length h) (length crm_db)).
  split; [exact Hrun|]. split; [apply length_seq|]. split; [exact Hold|].
  intros i l Hi. exists (length h + i)%nat.
  split; [apply lookup_seq; split; [done|]; by apply lookup_lt_Some in Hi|].
  split; [lia|]. by destruct (Hrec i l Hi) as (Hframe & _).
Qed.

(** C10, on the code: a record whose country cell is empty holds NaN, a
    float, under ['Pays']; [client.get('Pays', '').strip()] raises
    [AttributeError] on it and [update_CRM] returns no list, whatever the
    registry. *)
Theorem C10_update_CRM_raises_on_nan_country
    (U : unicode_data) (ratio : pystr -> pystr -> Z) (fuel : nat)
    (sirene_df : list sirene_row) :
  update_CRM U ratio fuel sirene_df [rec_nan_pays] [0%nat] = Raise AttributeError.
Proof.
  unfold update_CRM.
  change (copy_records [rec_nan_pays] [0%nat])
    with ([rec_nan_pays; new_record rec_nan_pays], [1%nat]).
  cbn [update_loop]. unfold update_client.
  change (get_or_empty ([rec_nan_pays; new_record rec_nan_pays] !!! 1%nat) k_Pays)
    with (PCell NaN).
  reflexivity.
Qed.

(** * Further properties *)

(** ** Headquarters lookup and workforce resolution *)

(** X1: [find_headquarters] returns the first row of the table, in table
    order, whose SIREN reads (through [str]) as the one looked for, also
    when several rows share it; it returns [None] exactly when no row has
    that SIREN. *)
Theorem find_headquarters_first_match
    (heads : list sirene_row) (code : cell) :
  (forall hq, find_headquarters heads code = Some hq <->
     exists before after, heads = before ++ hq :: after /\
       cell_str (siren hq) = cell_str code /\
       Forall (fun r => cell_str (siren r) <> cell_str code) before) /\
  (find_headquarters heads code = None <->
     Forall (fun r => cell_str (siren r) <> cell_str code) heads).
Proof.
  unfold find_headquarters, pystr_eqb.
  induction heads as [|r heads [IHsome IHnone]]; simpl.
  - split.
    + intros hq. split; [done|]. intros (before & after & H & _).
      by destruct before.
    + split; [constructor|done].
  - destruct (decide (cell_str (siren r) = cell_str code)) as [Heq|Hne].
    + rewrite bool_decide_eq_true_2 by done. split.
      * intros hq. split.
        -- intros [= <-]. exists [], heads. by repeat split.
        -- intros (before & after & H & Hhq & Hbefore).
           destruct before as [|r' before]; simpl in H.
           ++ by injection H as ->.
           ++ injection H as -> _. by inversion Hbefore.
      * split; [done|]. intros H. by inversion H.
    + rewrite bool_decide_eq_false_2 by done. split.
      * intros hq. rewrite IHsome. split.
        -- intros (before & after & -> & Hhq & Hbefore).
           exists (r :: before), after. repeat split; [done|by constructor].
        -- intros (before & after & H & Hhq & Hbefore).
           destruct before as [|r' before]; simpl in H.
           ++ injection H as -> _. done.
           ++ injection H as -> ->. inversion Hbefore; subst.
              by exists before, after.
      * rewrite IHnone. split; [by constructor|]. intros H. by inversion H.
Qed.

(** X2: whatever the data, a value returned by [fill_effectif] is either
    one of the two sentinels or the bracket of an ACTIVE row: the record
    itself or a row of the headquarters table. A bracket of a CLOSED row is
    never returned. *)
Theorem fill_effectif_result_provenance
    (fuel : nat) (r : sirene_row) (heads : list sirene_row) (v : cell) :
  fill_effectif fuel r heads = Ok v ->
  v = A_PRECISER \/ v = RADIEE \/
  exists r', (r' = r \/ r' ∈ heads) /\
    etatAdministratifEtablissement r' = Str (lit "A") /\
    v = trancheEffectifsEtablissement r'.
Proof.
  revert r. induction fuel as [|fuel IH]; intros r; [done|].
  rewrite fill_effectif_unfold.
  case_bool_decide as Hact.
  - intros [= <-]. destruct (cell_truthy _); [|by left].
    right; right. exists r. by eauto.
  - case_bool_decide; [|intros [= <-]; by left].
    destruct (truthy _); [intros [= <-]; by right; left|].
    destruct (find_headquarters heads (siren r)) as [hq|] eqn:Hfind;
      [|intros [= <-]; by left].
    intros Hv. apply find_headquarters_elem in Hfind as [Hin _].
    destruct (IH hq Hv) as [?|[?|(r' & [->|Hr'] & Hr'act & ->)]]; eauto 10.
Qed.

Lemma fill_effectif_provenance_witness :
  S_ "21" = A_PRECISER \/ S_ "21" = RADIEE \/
  exists r', (r' = branch_of_active \/ r' ∈ sample_heads) /\
    etatAdministratifEtablissement r' = Str (lit "A") /\
    S_ "21" = trancheEffectifsEtablissement r'.
Proof.
  apply (fill_effectif_result_provenance 2 branch_of_active sample_heads (S_ "21")).
  reflexivity.
Defined.

(** ** Scoring and matching *)

Lemma substring_bonus_range a b :
  (0 <= substring_bonus a b <= 20)%Z.
Proof. unfold substring_bonus. destruct (_ || _); lia. Qed.

Lemma acronym_bonus_range a b :
  (0 <= acronym_bonus a b <= 20)%Z.
Proof.
  unfold acronym_bonus.
  destruct (_ && _); [|lia]. destruct (pystr_eqb _ _); [lia|].
  destruct (py_in _ _); lia.
Qed.

(** X3: when the ratio of the two names lies between 0 and 100, the
    score lies between -10 and 150, and it exceeds 130 only when the two
    cities, stripped and lower-cased, are equal and not empty. *)
Theorem match_score_range
    (U : unicode_data) (ratio : pystr -> pystr -> Z) (a b x y : cell) :
  (0 <= ratio (cell_str a) (cell_str b) <= 100)%Z ->
  (-10 <= match_score U ratio a b x y <= 150)%Z /\
  ((130 < match_score U ratio a b x y)%Z ->
   str_lower U (strip (cell_str x)) = str_lower U (strip (cell_str y)) /\
   str_lower U (strip (cell_str x)) <> []).
Proof.
  intros Hr. unfold match_score.
  pose proof (substring_bonus_range (cell_str a) (cell_str b)).
  pose proof (acronym_bonus_range (cell_str a) (cell_str b)).
  unfold city_bonus, pystr_eqb.
  destruct (str_lower U (strip (cell_str x))) as [|c cx] eqn:Hx; simpl.
  - split; [lia|]. intros. exfalso. lia.
  - destruct (nonempty (str_lower U (strip (cell_str y)))); simpl;
      [|split; [lia|intros; exfalso; lia]].
    case_bool_decide as Heq; [|split; [lia|intros; exfalso; lia]].
    split; [lia|]. intros _. split; [exact Heq|done].
Qed.

Lemma match_score_range_witness :
  (-10 <= match_score sample_ucd sample_ratio (S_ "acme informatique")
            (S_ "acme informatique") (S_ "lyon") (S_ " LYON ") <= 150)%Z /\
  ((130 < match_score sample_ucd sample_ratio (S_ "acme informatique")
            (S_ "acme informatique") (S_ "lyon") (S_ " LYON "))%Z ->
   str_lower sample_ucd (strip (cell_str (S_ "lyon")))
   = str_lower sample_ucd (strip (cell_str (S_ " LYON "))) /\
   str_lower sample_ucd (strip (cell_str (S_ "lyon"))) <> []).
Proof.
  apply (match_score_range sample_ucd sample_ratio (S_ "acme informatique")
           (S_ "acme informatique") (S_ "lyon") (S_ " LYON ")).
  vm_compute. split; discriminate.
Defined.

(** The state of the loop of [match_single_company] after the bucket:
    the highest score above the initial one, with a row that has it. *)
Lemma scan_result_max U ratio name city (l : list sirene_row) b m :
  foldl (scan_step U ratio name city) ((-1)%Z, None) l = (b, m) ->
  (forall r, r ∈ l -> (row_score U ratio name city r <= b)%Z) /\
  ((b = (-1)%Z /\ m = None) \/
   (exists r, m = Some r /\ r ∈ l /\ b = row_score U ratio name city r /\
              (-1 < b)%Z)).
Proof.
  intros Hfold. split.
  - intros r Hr. by eapply scan_upper_bound.
  - apply scan_spec in Hfold.
    destruct Hfold as [(-> & -> & _)|(l1 & r & l2 & -> & -> & -> & Hlt & _)];
      [by left|].
    right. exists r. repeat split; [|done]. apply elem_of_app. right. by left.
Qed.

(** X4: when no two rows of the bucket share its highest score, the
    answer of [match_single_company] does not depend on the order of the
    bucket. *)
Theorem match_single_company_order_independent
    (U : unicode_data) (ratio : pystr -> pystr -> Z)
    (client_name client_city : cell) (bucket bucket' : list sirene_row)
    (threshold : Q) :
  bucket ≡ₚ bucket' ->
  (forall r1 r2, r1 ∈ bucket -> r2 ∈ bucket ->
     (forall r, r ∈ bucket ->
        (row_score U ratio (normalize_name U client_name)
           (normalize_name U client_city) r
         <= row_score U ratio (normalize_name U client_name)
              (normalize_name U client_city) r1)%Z) ->
     row_score U ratio (normalize_name U client_name)
       (normalize_name U client_city) r2
     = row_score U ratio (normalize_name U client_name)
         (normalize_name U client_city) r1 ->
     r1 = r2) ->
  match_single_company U ratio client_name client_city bucket threshold
  = match_single_company U ratio client_name client_city bucket' threshold.
Proof.
  intros Hperm Huniq. unfold match_single_company.
  destruct (foldl _ _ bucket) as [b m] eqn:Hf.
  destruct (foldl _ _ bucket') as [b' m'] eqn:Hf'.
  apply scan_result_max in Hf as [Hmax Hf].
  apply scan_result_max in Hf' as [Hmax' Hf'].
  assert (forall r, r ∈ bucket' <-> r ∈ bucket) as Hmem.
  { intros r. by rewrite Hperm. }
  assert (b = b' /\ m = m') as [-> ->]; [|done].
  destruct Hf as [[-> ->]|(r & -> & Hr & -> & Hlt)],
           Hf' as [[-> ->]|(r' & -> & Hr' & -> & Hlt')].
  - done.
  - apply Hmem in Hr'. specialize (Hmax r' Hr'). lia.
  - apply Hmem in Hr. specialize (Hmax' r Hr). lia.
  - pose proof (Hmax r' (proj1 (Hmem r') Hr')) as H1.
    pose proof (Hmax' r (proj2 (Hmem r) Hr)) as H2.
    assert (r = r') as <-; [|done].
    apply Huniq; [done|by apply Hmem|done|lia].
Qed.

Lemma match_order_independent_witness :
  match_single_company sample_ucd sample_ratio acme_name acme_city
    bucket_69_pair 100
  = match_single_company sample_ucd sample_ratio acme_name acme_city
      bucket_69_shuffled 100.
Proof.
  apply (match_single_company_order_independent sample_ucd sample_ratio
           acme_name acme_city bucket_69_pair bucket_69_shuffled 100).
  - apply Permutation_swap.
  - intros r1 r2 Hr1 Hr2 Hmax Heq.
    apply list_elem_of_In in Hr1, Hr2.
    assert (row_far ∈ bucket_69_pair) as Hfar by (apply list_elem_of_In; simpl; tauto).
    assert (row_acme ∈ bucket_69_pair) as Hacme by (apply list_elem_of_In; simpl; tauto).
    pose proof (Hmax _ Hfar) as H1. pose proof (Hmax _ Hacme) as H2.
    simpl in Hr1, Hr2.
    destruct Hr1 as [<-|[<-|[]]]; destruct Hr2 as [<-|[<-|[]]];
      try reflexivity; vm_compute in H1, H2, Heq; congruence.
Defined.

(** ** The blocking index, further *)

Lemma filter_fmap {A B} (f : A -> B) (p : B -> bool) (l : list A) :
  List.filter p (f <$> l) = f <$> List.filter (fun x => p (f x)) l.
Proof.
  induction l as [|x l IH]; [done|].
  rewrite fmap_cons. cbn [List.filter].
  destruct (p (f x)); by rewrite ?fmap_cons, IH.
Qed.

Lemma filter_filter {A} (p q : A -> bool) (l : list A) :
  List.filter p (List.filter q l) = List.filter (fun x => q x && p x) l.
Proof.
  induction l as [|x l IH]; [done|].
  simpl. destruct (q x); simpl; [|done]. destruct (p x); by rewrite IH.
Qed.

(** X5: a bucket of the index is never empty, its key has at most two
    characters, and it holds, in the order of the table, the converted
    copies of exactly the ACTIVE rows whose postal code, as a string and
    cut to its first two characters, is the key (the whole code when it has
    fewer than two characters: bucket ["7"] holds the rows of code ["7"],
    not those of code ["75001"]). *)
Theorem create_sirene_by_dept_bucket_content
    (sirene_df : list sirene_row) (k : pystr) (g : list sirene_row) :
  create_sirene_by_dept sirene_df !! k = Some g ->
  g <> [] /\ (length k <= 2)%nat /\
  g = with_dept <$>
        List.filter
          (fun r => is_active r &&
                    bool_decide (take 2 (cell_str (codePostalEtablissement r)) = k))
          sirene_df.
Proof.
  intros Hg.
  pose proof Hg as Hg'. apply create_sirene_by_dept_lookup in Hg' as [Hk ->].
  apply list_elem_of_omap in Hk as (r & Hr & Hdept).
  apply list_elem_of_fmap in Hr as (r0 & -> & Hr0).
  simpl in Hdept. injection Hdept as <-.
  split; [|split].
  - intros Hnil.
    assert (with_dept r0 ∈ List.filter
              (fun r => bool_decide
                 (dept r = Some (take 2 (cell_str (codePostalEtablissement r0)))))
              (with_dept <$> List.filter is_active sirene_df)) as Hin.
    { apply filter_elem. split; [|by apply bool_decide_eq_true].
      apply list_elem_of_fmap. by exists r0. }
    rewrite Hnil in Hin. by apply elem_of_nil in Hin.
  - rewrite length_take. lia.
  - rewrite filter_fmap, filter_filter. f_equal.
    apply filter_ext. intros r. simpl. f_equal.
    apply bool_decide_ext. split; congruence.
Qed.

Lemma bucket_content_witness :
  [with_dept row_75001] <> [] /\ (length (lit "75") <= 2)%nat /\
  [with_dept row_75001] = with_dept <$>
        List.filter
          (fun r => is_active r &&
                    bool_decide (take 2 (cell_str (codePostalEtablissement r))
                                 = lit "75"))
          sample_registry.
Proof.
  apply (create_sirene_by_dept_bucket_content sample_registry (lit "75")
           [with_dept row_75001]).
  by vm_compute.
Defined.

(** ** Acronyms *)

Lemma split_words s :
  Forall (fun w => exists c w', w = c :: w' /\ isspace c = false) (split s).
Proof.
  induction s as [|c r IH]; [constructor|].
  cbn [split]. destruct (isspace c) eqn:Hc; [exact IH|].
  destruct r as [|d r']; [by repeat econstructor|].
  destruct (isspace d); [constructor; [by eauto|exact IH]|].
  destruct (split (d :: r')) as [|w ws]; [by repeat econstructor|].
  inversion IH; subst. constructor; [by eauto|done].
Qed.

Lemma split_nil s : split s = [] <-> lstrip s = [].
Proof.
  induction s as [|c r IH]; [done|].
  cbn [split lstrip]. destruct (isspace c); [exact IH|].
  split; [|done].
  destruct r as [|d r']; [done|].
  destruct (isspace d); [done|]. by destruct (split (d :: r')).
Qed.

Lemma strip_nil s : strip s = [] <-> lstrip s = [].
Proof.
  unfold strip. destruct (lstrip s) as [|c r] eqn:Hs; [done|].
  destruct (rstrip_cons_nonspace c r (lstrip_head _ _ _ Hs)) as [r' ->].
  done.
Qed.

(** X7: the acronym of a name has one character per word of the name,
    none of them a space, and it is empty exactly when the name is blank
    (empty once stripped). *)
Theorem extract_acronym_one_letter_per_word (s : pystr) :
  length (extract_acronym s) = length (split s) /\
  Forall (fun c => isspace c = false) (extract_acronym s) /\
  (extract_acronym s = [] <-> strip s = []).
Proof.
  unfold extract_acronym. rewrite strip_nil, <- split_nil.
  pose proof (split_words s) as Hw.
  induction Hw as [|w ws (c & w' & -> & Hc) Hws (IH1 & IH2 & IH3)]; [done|].
  simpl. split; [by rewrite IH1|]. split; [by constructor|done].
Qed.

(** ** Normalisation, further *)

Section Normalised.
Variable U : unicode_data.

Lemma normalize_name_kept name :
  Forall (fun c => kept_by_sub_punct U c = true) (normalize_name U name).
Proof.
  unfold normalize_name. destruct name as [s|]; [|constructor].
  destruct (strip s); [constructor|].
  apply strip_Forall, collapse_spaces_Forall; [done|].
  apply sub_words_Forall; [done|]. apply sub_punct_kept.
Qed.

Lemma normalize_name_tidy name : tidy (normalize_name U name) = true.
Proof.
  unfold normalize_name. destruct name as [s|]; [|done].
  destruct (strip s); [done|].
  apply tidy_rstrip, tidy_lstrip, tidy_collapse_spaces.
Qed.

Lemma normalize_name_stripped name :
  strip (normalize_name U name) = normalize_name U name.
Proof.
  unfold normalize_name. destruct name as [s|]; [|done].
  destruct (strip s); [done|]. apply strip_idem.
Qed.

Lemma normalize_name_clean_cedex name :
  clean U [lit "cedex"] (normalize_name U name).
Proof.
  unfold normalize_name. destruct name as [s|]; [|constructor].
  destruct (strip s); [constructor|].
  apply strip_keeps_clean, collapse_spaces_keeps_clean.
  apply sub_words_keeps_clean; [apply legal_forms_are_words|].
  apply sub_punct_keeps_clean.
  apply sub_words_clean; [apply cedex_is_word|].
  apply clean_ascii, sub_parens_Forall; [done|apply ascii_ignore_Forall].
Qed.

Lemma normalize_name_clean_legal name :
  clean U legal_forms (normalize_name U name).
Proof.
  unfold normalize_name. destruct name as [s|]; [|constructor].
  destruct (strip s); [constructor|].
  apply strip_keeps_clean, collapse_spaces_keeps_clean.
  apply sub_words_clean; [apply legal_forms_are_words|].
  apply clean_ascii, sub_punct_Forall; [done|].
  apply sub_words_Forall; [done|].
  apply sub_parens_Forall; [done|apply ascii_ignore_Forall].
Qed.

Lemma tidy_spaces s :
  tidy s = true -> Forall (fun c => isspace c = true -> c = 0x20) s.
Proof.
  induction s as [|c r IH]; [constructor|]. intros Ht.
  constructor; [|by apply IH, (tidy_tail c)].
  rewrite tidy_cons in Ht. intros Hc. rewrite Hc in Ht.
  apply andb_true_iff in Ht as [[Ht _]%andb_true_iff _].
  by apply N.eqb_eq in Ht.
Qed.

(** X8: the shape of a normalised name, whatever the input: ASCII
    characters only, each of them a word character ([\w]), a hyphen or the
    space U+0020 (no punctuation, no parenthesis, no tab or line break);
    no space at either end and no two spaces in a row. *)
Theorem normalize_name_output_shape (name : cell) :
  Forall (fun c => is_ascii c = true /\
                   (is_word U c = true \/ c = 0x2D \/ c = 0x20))
         (normalize_name U name) /\
  strip (normalize_name U name) = normalize_name U name /\
  tidy (normalize_name U name) = true.
Proof.
  split; [|split; [apply normalize_name_stripped|apply normalize_name_tidy]].
  pose proof (normalize_name_ascii U name) as Ha.
  pose proof (normalize_name_kept name) as Hk.
  pose proof (tidy_spaces _ (normalize_name_tidy name)) as Ht.
  induction Ha as [|c s Hc Hs IH]; [constructor|].
  inversion Hk; subst. inversion Ht; subst.
  constructor; [|by apply IH].
  split; [done|].
  unfold kept_by_sub_punct in *.
  destruct (is_word U c); [by left|].
  destruct (isspace c); [by right; right; auto|].
  right; left. apply N.eqb_eq. by destruct (c =? 0x2D).
Qed.

Lemma clean_no_occurrence excluded y :
  clean U excluded y ->
  forall w pre post,
    w ∈ excluded -> w <> [] -> Forall (wordc U) w -> y = pre ++ w ++ post ->
    (exists c pre', pre = pre' ++ [c] /\ is_word U c = true) \/
    (exists c post', post = c :: post' /\ is_word U c = true).
Proof.
  induction 1 as [|d r Hd Hr IH|w0 rest Hne0 Hw0 Hb Hout Hrest IH];
    intros w pre post Hin Hne Hw Heq.
  - destruct pre, w; done.
  - destruct pre as [|p pre1].
    + destruct Hw as [|c w' [_ Hc] _]; [done|].
      simpl in Heq. injection Heq as -> _. congruence.
    + simpl in Heq. injection Heq as -> Heq.
      destruct (IH w pre1 post Hin Hne Hw Heq) as [(c & pre' & -> & Hc)|Hpost].
      * left. by exists c, (p :: pre').
      * by right.
  - apply app_eq_app in Heq as [l [[-> Heq]|[-> ->]]].
    + destruct (decide (pre = [])) as [->|Hpre].
      * simpl in *. symmetry in Heq.
        apply app_eq_app in Heq as [l' [[-> ->]|[-> ->]]].
        -- destruct l' as [|c l']; [by rewrite app_nil_r in Hout|].
           apply Forall_app in Hw0 as [_ Hl']. inversion Hl' as [|? ? [_ Hc] _]; subst.
           right. by exists c, (l' ++ rest).
        -- destruct l' as [|c l']; [by rewrite app_nil_r in Hin|].
           apply Forall_app in Hw as [_ Hl']. inversion Hl' as [|? ? [_ Hc] _]; subst.
           simpl in Hb. congruence.
      * destruct (exists_last Hpre) as (pre' & c & ->).
        apply Forall_app in Hw0 as [Hp _]. apply Forall_app in Hp as [_ Hc].
        inversion Hc as [|? ? [_ Hc'] _]; subst.
        left. by exists c, pre'.
    + destruct (IH w l post Hin Hne Hw eq_refl) as [(c & pre' & -> & Hc)|Hpost].
      * left. exists c, (w0 ++ pre'). by rewrite app_assoc.
      * by right.
Qed.

(** X9: a normalised name holds no legal form of the list, and no
    [cedex], as a word of its own: wherever one occurs in the result, the
    character before it or the character after it is a word character, so
    the occurrence is part of a longer word. *)
Theorem normalize_name_holds_no_legal_form
    (name : cell) (w pre post : pystr) :
  w ∈ lit "cedex" :: legal_forms ->
  normalize_name U name = pre ++ w ++ post ->
  (exists c pre', pre = pre' ++ [c] /\ is_word U c = true) \/
  (exists c post', post = c :: post' /\ is_word U c = true).
Proof.
  intros Hin Heq. apply elem_of_cons in Hin as [->|Hin].
  - apply (clean_no_occurrence [lit "cedex"] _ (normalize_name_clean_cedex name)
             (lit "cedex") pre post); [by left|done| |done].
    by apply (Forall_inv (cedex_is_word U)).
  - apply (clean_no_occurrence legal_forms _ (normalize_name_clean_legal name)
             w pre post); [done| | |done].
    + clear Heq. unfold legal_forms in Hin. apply list_elem_of_In in Hin.
      simpl in Hin. intros ->.
      repeat destruct Hin as [Hin|Hin]; done.
    + pose proof (legal_forms_are_words U) as Hall.
      rewrite Forall_forall in Hall. by apply Hall.
Qed.
End Normalised.

Lemma normalize_name_no_legal_form_witness :
  (exists c pre', [] = pre' ++ [c] /\ is_word sample_ucd c = true) \/
  (exists c post', lit "rlat" = c :: post' /\ is_word sample_ucd c = true).
Proof.
  apply (normalize_name_holds_no_legal_form sample_ucd (S_ "SARLAT SA (24)")
           (lit "sa") [] (lit "rlat")).
  - apply list_elem_of_In. vm_compute. tauto.
  - reflexivity.
Defined.

(** X10: [normalize_name] is idempotent on every cell whose ASCII folding
    (lower case, NFKD, non-ASCII characters dropped) holds no capital
    letter: NaN, every ASCII string, every string of accented Latin
    letters. *)
Theorem normalize_name_idempotent (U : unicode_data) (name : cell) :
  capital_free U name ->
  normalize_name U (Str (normalize_name U name)) = normalize_name U name.
Proof.
  destruct name as [s|]; [|reflexivity].
  apply normalize_name_idempotent_without_capitals.
Qed.

Lemma normalize_name_idempotent_witness :
  normalize_name sample_ucd (Str (normalize_name sample_ucd societe_generale))
  = normalize_name sample_ucd societe_generale.
Proof.
  apply (normalize_name_idempotent sample_ucd societe_generale).
  unfold capital_free, societe_generale.
  apply Forall_forall. intros c Hc. apply list_elem_of_In in Hc.
  vm_compute in Hc. repeat destruct Hc as [<-|Hc]; try reflexivity. done.
Defined.

(** ** Letter case *)

Section Case.
Variable U : unicode_data.

Lemma str_lower_ascii s :
  Forall (fun c => is_ascii c = true) s -> str_lower U s = ascii_lower <$> s.
Proof.
  unfold str_lower. induction 1 as [|c s Hc Hs IH]; [done|].
  simpl. unfold lower_char at 1. by rewrite Hc, IH.
Qed.

Lemma str_upper_ascii s :
  Forall (fun c => is_ascii c = true) s -> str_upper U s = ascii_upper <$> s.
Proof.
  unfold str_upper. induction 1 as [|c s Hc Hs IH]; [done|].
  simpl. unfold upper_char at 1. by rewrite Hc, IH.
Qed.

Lemma ascii_upper_recases : recases ascii_upper.
Proof.
  intros c Hc.
  pose proof (ascii_cases
    (fun c => is_ascii (ascii_upper c)
              && bool_decide (isspace (ascii_upper c) = isspace c)
              && (ascii_lower (ascii_upper c) =? ascii_lower c))
    eq_refl c Hc) as H.
  simpl in H. apply andb_true_iff in H as [[H1 H2]%andb_true_iff H3].
  apply bool_decide_eq_true in H2. by apply N.eqb_eq in H3.
Qed.

Lemma ascii_lower_recases : recases ascii_lower.
Proof.
  intros c Hc.
  pose proof (ascii_cases
    (fun c => is_ascii (ascii_lower c)
              && bool_decide (isspace (ascii_lower c) = isspace c)
              && (ascii_lower (ascii_lower c) =? ascii_lower c))
    eq_refl c Hc) as H.
  simpl in H. apply andb_true_iff in H as [[H1 H2]%andb_true_iff H3].
  apply bool_decide_eq_true in H2. by apply N.eqb_eq in H3.
Qed.

Lemma recases_lstrip_nil g s :
  recases g -> Forall (fun c => is_ascii c = true) s ->
  lstrip (g <$> s) = [] <-> lstrip s = [].
Proof.
  intros Hg. induction 1 as [|c s Hc Hs IH]; [done|].
  rewrite fmap_cons. cbn [lstrip].
  destruct (Hg c Hc) as (_ & -> & _). by destruct (isspace c).
Qed.

Lemma recases_normalize_name g s :
  recases g -> Forall (fun c => is_ascii c = true) s ->
  normalize_name U (Str (g <$> s)) = normalize_name U (Str s).
Proof.
  intros Hg Hs.
  assert (Forall (fun c => is_ascii c = true) (g <$> s)) as Hgs.
  { apply Forall_fmap. eapply Forall_impl; [exact Hs|].
    intros c Hc. by destruct (Hg c Hc). }
  assert (str_lower U (g <$> s) = str_lower U s) as Hlow.
  { rewrite !str_lower_ascii by done. rewrite <- list_fmap_compose.
    apply list_fmap_ext. intros i c Hi. simpl.
    apply Hg. rewrite Forall_forall in Hs. apply Hs.
    by apply list_elem_of_lookup_2 in Hi. }
  pose proof (recases_lstrip_nil g s Hg Hs) as Hnil.
  rewrite <- !strip_nil in Hnil.
  unfold normalize_name. rewrite Hlow.
  destruct (strip (g <$> s)) eqn:H1, (strip s) eqn:H2; try done.
  - pose proof (proj1 Hnil eq_refl). done.
  - pose proof (proj2 Hnil eq_refl). done.
Qed.

(** X11: on ASCII text [normalize_name] does not see the letter case:
    the upper-cased and the lower-cased string normalise as the string
    itself. *)
Theorem normalize_name_ignores_ascii_case (s : pystr) :
  Forall (fun c => is_ascii c = true) s ->
  normalize_name U (Str (str_upper U s)) = normalize_name U (Str s) /\
  normalize_name U (Str (str_lower U s)) = normalize_name U (Str s).
Proof.
  intros Hs. rewrite str_upper_ascii, str_lower_ascii by done. split.
  - apply recases_normalize_name; [apply ascii_upper_recases|done].
  - apply recases_normalize_name; [apply ascii_lower_recases|done].
Qed.
End Case.

Lemma normalize_name_case_witness :
  normalize_name sample_ucd (Str (str_upper sample_ucd (lit "Acme Sarl (Lyon)")))
  = normalize_name sample_ucd (Str (lit "Acme Sarl (Lyon)")) /\
  normalize_name sample_ucd (Str (str_lower sample_ucd (lit "Acme Sarl (Lyon)")))
  = normalize_name sample_ucd (Str (lit "Acme Sarl (Lyon)")).
Proof.
  apply (normalize_name_ignores_ascii_case sample_ucd (lit "Acme Sarl (Lyon)")).
  apply Forall_forall. intros c Hc. apply list_elem_of_In in Hc.
  vm_compute in Hc. repeat destruct Hc as [<-|Hc]; try reflexivity. done.
Defined.

(** ** The run, further *)

Lemma fill_effectif_active fuel r heads :
  etatAdministratifEtablissement r = Str (lit "A") ->
  fill_effectif (S fuel) r heads
  = Ok (if cell_truthy (trancheEffectifsEtablissement r)
        then trancheEffectifsEtablissement r else A_PRECISER).
Proof.
  intros Hact. rewrite fill_effectif_unfold.
  by rewrite bool_decide_eq_true_2.
Qed.

Lemma bucket_row_active sirene_df k g r :
  create_sirene_by_dept sirene_df !! k = Some g -> r ∈ g ->
  etatAdministratifEtablissement r = Str (lit "A").
Proof.
  intros Hg Hr.
  destruct (bucket_member _ _ _ _ Hg Hr) as (r0 & _ & Hact & -> & _).
  by apply bool_decide_eq_true in Hact.
Qed.

Lemma as_text_text_field (d : dict) (k : pystr) (c : cell) :
  as_text (get_or_empty d k) = Ok c -> text_field d k = c.
Proof.
  unfold text_field. destruct (get_or_empty d k); simpl; congruence.
Qed.

Section RunExact.
Variable U : unicode_data.
Variable ratio : pystr -> pystr -> Z.
Variable sirene_df : list sirene_row.
Variable heads : list sirene_row.
Variable fuel : nat.

(** One iteration of the main loop on a well-typed record replaces its
    dict by the enriched one. *)
Lemma update_client_exact (cu : list nat) (h : heap) (i l : nat) :
  cu !! i = Some l -> (l < length h)%nat ->
  well_typed (h !!! l) = true ->
  update_client U ratio (S fuel) heads (create_sirene_by_dept sirene_df) cu h i l
  = Ok (<[l := enrich_record U ratio (create_sirene_by_dept sirene_df) (h !!! l)]> h).
Proof.
  intros Hl Hlt Hwt.
  assert (forall d, d = h !!! l -> Ok h = Ok (<[l := d]> h)) as Hsame.
  { intros d ->. f_equal. symmetry. apply list_insert_id.
    by apply list_lookup_lookup_total_lt. }
  unfold well_typed in Hwt.
  apply andb_true_iff in Hwt as [[Hpays Hname]%andb_true_iff Hcity].
  destruct (pays_ok_as_str U _ Hpays) as (pays & Hp & Hfr).
  destruct (text_ok_as_text _ _ Hname) as (c1 & Hc1).
  destruct (text_ok_as_text _ _ Hcity) as (c2 & Hc2).
  unfold update_client, enrich_record. rewrite Hp. cbn [bind].
  rewrite <- Hfr.
  destruct (is_france U (h !!! l)); cbn [negb]; [|by apply Hsame].
  fold (bucket_of_client (create_sirene_by_dept sirene_df) (h !!! l)).
  destruct (bucket_of_client _ _) as [[|r0 g]|] eqn:Hb;
    [by apply Hsame| |by apply Hsame].
  rewrite Hc1, Hc2. cbn [bind].
  rewrite (as_text_text_field _ _ _ Hc1), (as_text_text_field _ _ _ Hc2).
  destruct (match_single_company _ _ _ _ _ _) as [[m s]|] eqn:Hm;
    [|by apply Hsame].
  apply match_single_company_row in Hm as (row & -> & Hrow); [|reflexivity].
  unfold remplir_ligne_orion. rewrite Hl.
  rewrite (fill_effectif_active fuel row heads
             (bucket_row_active sirene_df _ _ row Hb Hrow)).
  reflexivity.
Qed.

(** The main loop over the records still to do, [todo], which lie at the
    end of the store. *)
Lemma update_loop_exact (cu : list nat) (todo : list dict) :
  forall (pre : heap) (i : nat),
  (forall j, (j < length todo)%nat -> cu !! (i + j)%nat = Some (length pre + j)%nat) ->
  Forall (fun d => well_typed d = true) todo ->
  update_loop U ratio (S fuel) heads (create_sirene_by_dept sirene_df) cu
    (pre ++ todo) i (seq (length pre) (length todo))
  = Ok (pre ++ (enrich_record U ratio (create_sirene_by_dept sirene_df) <$> todo)).
Proof.
  induction todo as [|d todo IH]; intros pre i Hidx Hwt.
  - done.
  - inversion Hwt as [|? ? Hd Htodo]; subst.
    cbn [length seq update_loop].
    assert ((pre ++ d :: todo) !!! length pre = d) as Hat.
    { apply list_lookup_total_correct. by rewrite list_lookup_middle. }
    rewrite update_client_exact.
    + cbn [bind]. rewrite Hat.
      replace (<[length pre := enrich_record U ratio
                   (create_sirene_by_dept sirene_df) d]> (pre ++ d :: todo))
        with ((pre ++ [enrich_record U ratio
                         (create_sirene_by_dept sirene_df) d]) ++ todo).
      * replace (S (length pre))
          with (length (pre ++ [enrich_record U ratio
                                  (create_sirene_by_dept sirene_df) d]))
          by (rewrite length_app; simpl; lia).
        rewrite IH; [by rewrite <- app_assoc|  |done].
        intros j Hj. rewrite length_app.
        replace (S i + j)%nat with (i + S j)%nat by lia.
        rewrite (Hidx (S j)) by (simpl; lia). f_equal. simpl. lia.
      * rewrite <- app_assoc. simpl.
        rewrite insert_app_r_alt by lia.
        by rewrite Nat.sub_diag.
    + rewrite <- (Nat.add_0_r i), (Hidx O) by (simpl; lia). f_equal. lia.
    + rewrite length_app. simpl. lia.
    + by rewrite Hat.
Qed.
End RunExact.

Lemma update_CRM_exact
    (U : unicode_data) (ratio : pystr -> pystr -> Z) (fuel : nat)
    (sirene_df : list sirene_row) (h : heap) (crm_db : list nat) :
  Forall (fun l => l < length h)%nat crm_db ->
  Forall (fun l => well_typed (h !!! l) = true) crm_db ->
  update_CRM U ratio (S fuel) sirene_df h crm_db
  = Ok (h ++ ((fun l => enrich_record U ratio (create_sirene_by_dept sirene_df)
                          (new_record (h !!! l))) <$> crm_db),
        seq (length h) (length crm_db)).
Proof.
  intros Hvalid Hwt. unfold update_CRM.
  rewrite copy_records_spec by done.
  pose proof (update_loop_exact U ratio sirene_df
                (List.filter (fun r => eq_True (etablissementSiege r)) sirene_df)
                fuel (seq (length h) (length crm_db))
                ((fun l => new_record (h !!! l)) <$> crm_db) h O) as Hloop.
  rewrite length_fmap in Hloop. rewrite Hloop.
  - cbn [bind]. by rewrite <- list_fmap_compose.
  - intros j Hj. by apply lookup_seq.
  - apply Forall_fmap. eapply Forall_impl; [exact Hwt|].
    intros l Hl. simpl. by rewrite new_record_well_typed.
Qed.

(** X12: on well-typed records a run of [update_CRM] is a map. It
    returns; the returned list names one fresh dict per input record, in
    order; the dicts of the caller are left as they were; and the dict of a
    record is [enrich_record] of its copy with defaults: it depends on that
    record and on the index alone, not on the other records, not on the
    headquarters table, not on the recursion depth. *)
Theorem update_CRM_is_a_map
    (U : unicode_data) (ratio : pystr -> pystr -> Z) (fuel : nat)
    (sirene_df : list sirene_row) (h : heap) (crm_db : list nat) :
  Forall (fun l => l < length h)%nat crm_db ->
  Forall (fun l => well_typed (h !!! l) = true) crm_db ->
  update_CRM U ratio (S fuel) sirene_df h crm_db
  = Ok (h ++ ((fun l => enrich_record U ratio (create_sirene_by_dept sirene_df)
                          (new_record (h !!! l))) <$> crm_db),
        seq (length h) (length crm_db)).
Proof. apply update_CRM_exact. Qed.

Lemma update_CRM_map_witness :
  update_CRM sample_ucd sample_ratio 1 sample_sirene sample_heap sample_crm_db
  = Ok (sample_heap ++
          ((fun l => enrich_record sample_ucd sample_ratio
                       (create_sirene_by_dept sample_sirene)
                       (new_record (sample_heap !!! l))) <$> sample_crm_db),
        seq (length sample_heap) (length sample_crm_db)).
Proof.
  apply (update_CRM_is_a_map sample_ucd sample_ratio 0 sample_sirene
           sample_heap sample_crm_db); repeat constructor.
Defined.

(** What [enrich_record] does to a record: nothing, or the five
    assignments from one ACTIVE row of the table whose postal code starts
    as the record's does, accepted with a score of at least 100. *)
Lemma enrich_record_cases (U : unicode_data) (ratio : pystr -> pystr -> Z)
    (sirene_df : list sirene_row) (d : dict) :
  enrich_record U ratio (create_sirene_by_dept sirene_df) d = d \/
  exists (r0 : sirene_row) (score : Z),
    r0 ∈ sirene_df /\
    etatAdministratifEtablissement r0 = Str (lit "A") /\
    is_france U d = true /\
    take 2 (cell_str (codePostalEtablissement r0))
      = take 2 (py_str (get_or_empty d k_CP)) /\
    (100 <= score)%Z /\
    score = row_score U ratio (normalize_name U (text_field d k_Societe))
              (normalize_name U (text_field d k_Ville)) (with_dept r0) /\
    enrich_record U ratio (create_sirene_by_dept sirene_df) d
    = <[k_effectif :=
          PCell (if cell_truthy (trancheEffectifsEtablissement r0)
                 then trancheEffectifsEtablissement r0 else A_PRECISER)]>
        (<[k_score_match := PInt score]>
          (<[k_nom_match_sirene := PCell (nom_normalise r0)]>
            (<[k_SIREN := PCell (Str (cell_str (siren r0)))]>
              (<[k_SIRET := PCell (Str (cell_str (siret r0)))]> d)))).
Proof.
  unfold enrich_record.
  destruct (is_france U d) eqn:Hfr; [|by left].
  destruct (bucket_of_client _ d) as [[|b0 g]|] eqn:Hb; [by left| |by left].
  destruct (match_single_company _ _ _ _ _ _) as [[[row|] s]|] eqn:Hm;
    [|by left..].
  right. unfold match_single_company in Hm.
  destruct (foldl _ _ (b0 :: g)) as [b m] eqn:Hfold.
  destruct (Qle_bool 100 (inject_Z b)) eqn:Hq; [|done].
  injection Hm as -> ->.
  apply Qle_bool_iff in Hq. change 100%Q with (inject_Z 100) in Hq.
  rewrite <- Zle_Qle in Hq.
  apply scan_spec in Hfold.
  destruct Hfold as [(_ & [=] & _)|(l1 & r & l2 & Hg & [= <-] & Hs & _)].
  assert (row ∈ b0 :: g) as Hrow.
  { rewrite Hg. apply elem_of_app. right. apply elem_of_cons. by left. }
  destruct (bucket_member _ _ _ _ Hb Hrow) as (r0 & Hr0 & Hact & -> & Hk).
  exists r0, s. apply bool_decide_eq_true in Hact.
  repeat split; done.
Qed.

(** X13: what a run writes. Take a registry whose rows all have a SIRET,
    a SIREN and a postal code (strings), and well-typed records. Every
    returned dict is either the copy of its record with the defaults, or
    that copy after the five assignments, and then: the values come from
    one row of the registry that is ACTIVE and whose postal code, cut to
    its first two characters, is [str] of the record's [CP] cut to its
    first two characters; the record passed the country filter; the score
    written is the score of that row and is at least 100; [SIRET] and
    [SIREN] are the cells of that row; and [effectif] is the bracket cell
    of that very row as it is (NaN when the bracket is missing), replaced
    by 'A PRECISER' only when it is the empty string: no headquarters is
    consulted. *)
Theorem update_CRM_writes_from_active_row_of_same_department
    (U : unicode_data) (ratio : pystr -> pystr -> Z) (fuel : nat)
    (sirene_df : list sirene_row) (h : heap) (crm_db : list nat) :
  Forall (fun r => identified r = true) sirene_df ->
  Forall (fun l => l < length h)%nat crm_db ->
  Forall (fun l => well_typed (h !!! l) = true) crm_db ->
  exists h' : heap,
    update_CRM U ratio (S fuel) sirene_df h crm_db
    = Ok (h', seq (length h) (length crm_db)) /\
    forall (i l : nat), crm_db !! i = Some l ->
      h' !!! (length h + i)%nat = new_record (h !!! l) \/
      exists (r0 : sirene_row) (score : Z),
        r0 ∈ sirene_df /\
        etatAdministratifEtablissement r0 = Str (lit "A") /\
        is_france U (h !!! l) = true /\
        take 2 (cell_str (codePostalEtablissement r0))
          = take 2 (py_str (get_or_empty (h !!! l) k_CP)) /\
        (100 <= score)%Z /\
        score = row_score U ratio
                  (normalize_name U (text_field (h !!! l) k_Societe))
                  (normalize_name U (text_field (h !!! l) k_Ville))
                  (with_dept r0) /\
        h' !!! (length h + i)%nat
        = <[k_effectif :=
              PCell (match trancheEffectifsEtablissement r0 with
                     | Str [] => A_PRECISER
                     | bracket => bracket
                     end)]>
            (<[k_score_match := PInt score]>
              (<[k_nom_match_sirene := PCell (nom_normalise r0)]>
                (<[k_SIREN := PCell (siren r0)]>
                  (<[k_SIRET := PCell (siret r0)]>
                    (new_record (h !!! l)))))).
Proof.
  intros Hreg Hvalid Hwt. eexists. split; [by apply update_CRM_exact|].
  intros i l Hi.
  assert ((h ++ ((fun l => enrich_record U ratio (create_sirene_by_dept sirene_df)
                             (new_record (h !!! l))) <$> crm_db))
            !!! (length h + i)%nat
          = enrich_record U ratio (create_sirene_by_dept sirene_df)
              (new_record (h !!! l))) as ->.
  { apply list_lookup_total_correct. rewrite lookup_app_r by lia.
    replace (length h + i - length h)%nat with i by lia.
    by rewrite list_lookup_fmap, Hi. }
  destruct (enrich_record_cases U ratio sirene_df (new_record (h !!! l)))
    as [Hsame|(r0 & s & Hr0 & Hact & Hfr & Hcp & Hs & Hscore & Hrec)];
    [by left|right].
  exists r0, s.
  rewrite new_record_is_france in Hfr.
  assert (forall k, k ∉ enrichment_fields ->
            get_or_empty (new_record (h !!! l)) k = get_or_empty (h !!! l) k)
    as Hget.
  { intros k Hk. unfold get_or_empty. by rewrite new_record_other. }
  assert (forall k, k ∉ enrichment_fields ->
            text_field (new_record (h !!! l)) k = text_field (h !!! l) k)
    as Htext.
  { intros k Hk. unfold text_field. by rewrite Hget. }
  rewrite Hget in Hcp
    by (intros H; apply list_elem_of_In in H; simpl in H;
        repeat destruct H as [H|H]; try done; key_discr).
  rewrite !Htext in Hscore
    by (intros H; apply list_elem_of_In in H; simpl in H;
        repeat destruct H as [H|H]; try done; key_discr).
  repeat split; try done.
  rewrite Hrec. rewrite Forall_forall in Hreg.
  pose proof (Hreg r0 Hr0) as Hid. unfold identified in Hid.
  destruct (siret r0) as [a|], (siren r0) as [b|]; try done.
  simpl. by destruct (trancheEffectifsEtablissement r0) as [[|c t]|].
Qed.

Lemma update_CRM_writes_witness :
  exists h' : heap,
    update_CRM sample_ucd sample_ratio 1 sample_sirene sample_heap sample_crm_db
    = Ok (h', seq (length sample_heap) (length sample_crm_db)) /\
    forall (i l : nat), sample_crm_db !! i = Some l ->
      h' !!! (length sample_heap + i)%nat = new_record (sample_heap !!! l) \/
      exists (r0 : sirene_row) (score : Z),
        r0 ∈ sample_sirene /\
        etatAdministratifEtablissement r0 = Str (lit "A") /\
        is_france sample_ucd (sample_heap !!! l) = true /\
        take 2 (cell_str (codePostalEtablissement r0))
          = take 2 (py_str (get_or_empty (sample_heap !!! l) k_CP)) /\
        (100 <= score)%Z /\
        score = row_score sample_ucd sample_ratio
                  (normalize_name sample_ucd (text_field (sample_heap !!! l) k_Societe))
                  (normalize_name sample_ucd (text_field (sample_heap !!! l) k_Ville))
                  (with_dept r0) /\
        h' !!! (length sample_heap + i)%nat
        = <[k_effectif :=
              PCell (match trancheEffectifsEtablissement r0 with
                     | Str [] => A_PRECISER
                     | bracket => bracket
                     end)]>
            (<[k_score_match := PInt score]>
              (<[k_nom_match_sirene := PCell (nom_normalise r0)]>
                (<[k_SIREN := PCell (siren r0)]>
                  (<[k_SIRET := PCell (siret r0)]>
                    (new_record (sample_heap !!! l)))))).
Proof.
  apply (update_CRM_writes_from_active_row_of_same_department
           sample_ucd sample_ratio 0 sample_sirene sample_heap sample_crm_db);
    repeat constructor.
Defined.

(** *** Exceptions *)

Section RunRaises.
Variable U : unicode_data.
Variable ratio : pystr -> pystr -> Z.
Variable sirene_df : list sirene_row.

(** One iteration does the same whatever the headquarters table and the
    recursion depth left, above one frame: the row handed to
    [fill_effectif] comes from a bucket and is ACTIVE. *)
Lemma update_client_heads (fuel fuel' : nat) (heads heads' : list sirene_row)
    (cu : list nat) (h : heap) (i l : nat) :
  update_client U ratio (S fuel) heads (create_sirene_by_dept sirene_df) cu h i l
  = update_client U ratio (S fuel') heads' (create_sirene_by_dept sirene_df) cu h i l.
Proof.
  unfold update_client.
  destruct (as_str _); cbn [bind]; [|done].
  destruct (negb _); [done|].
  destruct (create_sirene_by_dept sirene_df !! _) as [[|b0 g]|] eqn:Hb;
    [done| |done].
  destruct (as_text _); cbn [bind]; [|done].
  destruct (as_text _); cbn [bind]; [|done].
  destruct (match_single_company _ _ _ _ _ _) as [[[row|] s]|] eqn:Hm;
    [|done..].
  apply match_single_company_row in Hm as (r & [= <-] & Hrow); [|reflexivity].
  unfold remplir_ligne_orion. destruct (cu !! i); [|done].
  by rewrite !(fill_effectif_active _ row _
                 (bucket_row_active sirene_df _ _ row Hb Hrow)).
Qed.

Lemma update_loop_heads (fuel fuel' : nat) (heads heads' : list sirene_row)
    (cu : list nat) (rest : list nat) :
  forall (h : heap) (i : nat),
  update_loop U ratio (S fuel) heads (create_sirene_by_dept sirene_df) cu h i rest
  = update_loop U ratio (S fuel') heads' (create_sirene_by_dept sirene_df) cu h i rest.
Proof.
  induction rest as [|l rest IH]; intros h i; [done|].
  cbn [update_loop]. rewrite (update_client_heads fuel fuel' heads heads').
  destruct (update_client _ _ _ _ _ _ _ _ _); cbn [bind]; [apply IH|done].
Qed.

(** An iteration for a position of the list raises nothing but
    [AttributeError]. *)
Lemma update_client_raises (fuel : nat) (heads : list sirene_row)
    (cu : list nat) (h : heap) (i l : nat) (e : exn) :
  is_Some (cu !! i) ->
  update_client U ratio (S fuel) heads (create_sirene_by_dept sirene_df) cu h i l
  = Raise e ->
  e = AttributeError.
Proof.
  intros [l' Hl']. unfold update_client.
  destruct (get_or_empty (h !!! l) k_Pays) as [[pays|]| | |];
    cbn [as_str bind]; try congruence.
  destruct (negb _); [done|].
  destruct (create_sirene_by_dept sirene_df !! _) as [[|b0 g]|] eqn:Hb;
    [done| |done].
  destruct (get_or_empty (h !!! l) k_Societe); cbn [as_text bind];
    try congruence.
  destruct (get_or_empty (h !!! l) k_Ville); cbn [as_text bind];
    try congruence.
  destruct (match_single_company _ _ _ _ _ _) as [[m s]|] eqn:Hm; [|done].
  apply match_single_company_row in Hm as (row & -> & Hrow); [|reflexivity].
  unfold remplir_ligne_orion. rewrite Hl'.
  by rewrite (fill_effectif_active fuel row heads
                (bucket_row_active sirene_df _ _ row Hb Hrow)).
Qed.

Lemma update_loop_raises (fuel : nat) (heads : list sirene_row)
    (cu : list nat) (rest : list nat) (e : exn) :
  forall (h : heap) (i : nat),
  (i + length rest <= length cu)%nat ->
  update_loop U ratio (S fuel) heads (create_sirene_by_dept sirene_df) cu h i rest
  = Raise e ->
  e = AttributeError.
Proof.
  induction rest as [|l rest IH]; intros h i Hlen; [done|].
  cbn [update_loop]. simpl in Hlen.
  destruct (update_client _ _ _ _ _ _ _ _ _) as [h'|e'] eqn:Hstep; cbn [bind].
  - apply IH. lia.
  - intros [= <-]. eapply update_client_raises; [|exact Hstep].
    apply lookup_lt_is_Some. lia.
Qed.
End RunRaises.

Lemma create_sirene_by_dept_active (sirene_df : list sirene_row) :
  create_sirene_by_dept (List.filter is_active sirene_df)
  = create_sirene_by_dept sirene_df.
Proof.
  unfold create_sirene_by_dept. rewrite filter_filter.
  rewrite (List.filter_ext _ is_active); [done|].
  intros r. by destruct (is_active r).
Qed.

(** X14: the run reads the ACTIVE rows of the registry and nothing else.
    Removing every row that is not ACTIVE from the table, the closed
    headquarters among them, changes nothing: same returned list, same
    dicts, same exception if one is raised; nor does the recursion depth
    available, from one frame on. The headquarters table that [update_CRM]
    builds and passes down has no effect on what it returns. *)
Theorem update_CRM_reads_active_rows_only
    (U : unicode_data) (ratio : pystr -> pystr -> Z) (fuel fuel' : nat)
    (sirene_df : list sirene_row) (h : heap) (crm_db : list nat) :
  update_CRM U ratio (S fuel) sirene_df h crm_db
  = update_CRM U ratio (S fuel') (List.filter is_active sirene_df) h crm_db.
Proof.
  unfold update_CRM. rewrite create_sirene_by_dept_active.
  destruct (copy_records h crm_db) as [h1 cu].
  by rewrite (update_loop_heads U ratio sirene_df fuel fuel'
                (List.filter (fun r => eq_True (etablissementSiege r)) sirene_df)
                (List.filter (fun r => eq_True (etablissementSiege r))
                   (List.filter is_active sirene_df))).
Qed.

(** X15: the exceptions of a run. With one frame or more, [update_CRM] on
    records of the store raises nothing but [AttributeError] (no
    [RecursionError], no [IndexError], no [TypeError] from unpacking a
    [None]), and it raises only when some record holds, under ['Pays'],
    ['Société'] or ['Ville'], a value that is not of the kind the code
    calls a string method on. *)
Theorem update_CRM_raises_only_AttributeError
    (U : unicode_data) (ratio : pystr -> pystr -> Z) (fuel : nat)
    (sirene_df : list sirene_row) (h : heap) (crm_db : list nat) (e : exn) :
  Forall (fun l => l < length h)%nat crm_db ->
  update_CRM U ratio (S fuel) sirene_df h crm_db = Raise e ->
  e = AttributeError /\
  exists l : nat, l ∈ crm_db /\ well_typed (h !!! l) = false.
Proof.
  intros Hvalid Hrun. split.
  - unfold update_CRM in Hrun. rewrite copy_records_spec in Hrun by done.
    destruct (update_loop _ _ _ _ _ _ _ _ _) as [h'|e'] eqn:Hloop;
      cbn [bind] in Hrun; [done|].
    injection Hrun as <-.
    eapply update_loop_raises; [|exact Hloop]. simpl. lia.
  - destruct (decide (Forall (fun l => well_typed (h !!! l) = true) crm_db))
      as [Hwt|Hwt].
    + by rewrite update_CRM_exact in Hrun.
    + apply not_Forall_Exists in Hwt; [|intros l; apply _].
      apply Exists_exists in Hwt as (l & Hl & Hbad).
      exists l. split; [done|]. by apply not_true_is_false.
Qed.

Lemma update_CRM_raises_witness :
  AttributeError = AttributeError /\
  exists l : nat, l ∈ [0%nat] /\ well_typed ([rec_nan_pays] !!! l) = false.
Proof.
  apply (update_CRM_raises_only_AttributeError sample_ucd sample_ratio 0
           sample_sirene [rec_nan_pays] [0%nat] AttributeError).
  - repeat constructor.
  - reflexivity.
Defined.

(** *** Exact duplicates *)

(** A bucket that holds an exact duplicate of the query yields a match of
    score 150 or more. *)
Lemma exact_duplicate_accepted (U : unicode_data) (ratio : pystr -> pystr -> Z)
    (client_name client_city : cell) (bucket : list sirene_row) (row : sirene_row) :
  (forall s, ratio s s = 100%Z) ->
  normalize_name U client_name <> [] ->
  normalize_name U client_city <> [] ->
  row ∈ bucket ->
  nom_normalise row = Str (normalize_name U client_name) ->
  normalize_name U (libelleCommuneEtablissement row) = normalize_name U client_city ->
  exists r s,
    match_single_company U ratio client_name client_city bucket 100
    = Some (Some r, s) /\
    r ∈ bucket /\ (150 <= s)%Z /\
    s = row_score U ratio (normalize_name U client_name)
          (normalize_name U client_city) r.
Proof.
  intros Hrefl Hn Hc Hin Hnom Hcity.
  assert (row_score U ratio (normalize_name U client_name)
            (normalize_name U client_city) row = 150%Z) as Hscore.
  { apply exact_duplicate_score; eauto. }
  unfold match_single_company.
  destruct (foldl _ _ bucket) as [b m] eqn:Hfold.
  pose proof (scan_upper_bound _ _ _ _ _ _ _ _ _ _ Hfold Hin) as Hmax.
  rewrite Hscore in Hmax.
  apply scan_spec in Hfold.
  destruct Hfold as [(-> & _ & _)|(l1 & r & l2 & -> & -> & -> & _ & _ & _)];
    [lia|].
  exists r, (row_score U ratio (normalize_name U client_name)
               (normalize_name U client_city) r).
  replace (Qle_bool 100 _) with true.
  - repeat split; [|done]. apply elem_of_app. right. apply elem_of_cons. by left.
  - symmetry. apply Qle_bool_iff. change 100%Q with (inject_Z 100).
    rewrite <- Zle_Qle. lia.
Qed.

(** X19: an exact duplicate is never missed. Take a ratio that gives 100
    to two equal strings and a run on well-typed records. When a record
    passes the country filter and the registry holds an ACTIVE row with the
    same first two characters of postal code, whose normalised name is the
    normalised name of the record (not empty) and whose city normalises as
    the city of the record (not empty), the run enriches the record: the
    returned dict carries a score of 150 or more and the SIRET of an
    ACTIVE row of the registry reaching that score. *)
Theorem update_CRM_matches_exact_duplicate
    (U : unicode_data) (ratio : pystr -> pystr -> Z) (fuel : nat)
    (sirene_df : list sirene_row) (h : heap) (crm_db : list nat)
    (i l : nat) (r0 : sirene_row) :
  (forall s, ratio s s = 100%Z) ->
  Forall (fun l => l < length h)%nat crm_db ->
  Forall (fun l => well_typed (h !!! l) = true) crm_db ->
  crm_db !! i = Some l ->
  is_france U (h !!! l) = true ->
  r0 ∈ sirene_df ->
  etatAdministratifEtablissement r0 = Str (lit "A") ->
  take 2 (cell_str (codePostalEtablissement r0))
    = take 2 (py_str (get_or_empty (h !!! l) k_CP)) ->
  normalize_name U (text_field (h !!! l) k_Societe) <> [] ->
  normalize_name U (text_field (h !!! l) k_Ville) <> [] ->
  nom_normalise r0 = Str (normalize_name U (text_field (h !!! l) k_Societe)) ->
  normalize_name U (libelleCommuneEtablissement r0)
    = normalize_name U (text_field (h !!! l) k_Ville) ->
  exists (h' : heap) (r : sirene_row) (score : Z),
    update_CRM U ratio (S fuel) sirene_df h crm_db
    = Ok (h', seq (length h) (length crm_db)) /\
    r ∈ sirene_df /\
    etatAdministratifEtablissement r = Str (lit "A") /\
    (150 <= score)%Z /\
    score = row_score U ratio
              (normalize_name U (text_field (h !!! l) k_Societe))
              (normalize_name U (text_field (h !!! l) k_Ville)) (with_dept r) /\
    (h' !!! (length h + i)%nat) !! k_score_match = Some (PInt score) /\
    (h' !!! (length h + i)%nat) !! k_SIRET
    = Some (PCell (Str (cell_str (siret r)))).
Proof.
  intros Hrefl Hvalid Hwt Hi Hfr Hr0 Hact Hcp Hn Hc Hnom Hcity.
  assert (is_active r0 = true) as Hact' by (by apply bool_decide_eq_true).
  destruct (bucket_of_active sirene_df r0 Hr0 Hact') as (g & Hg & Hin).
  assert (forall k, k ∉ enrichment_fields ->
            text_field (new_record (h !!! l)) k = text_field (h !!! l) k)
    as Htext.
  { intros k Hk. unfold text_field, get_or_empty. by rewrite new_record_other. }
  assert (text_field (new_record (h !!! l)) k_Societe
          = text_field (h !!! l) k_Societe) as Hsoc.
  { apply Htext. intros H; apply list_elem_of_In in H; simpl in H;
      repeat destruct H as [H|H]; try done; key_discr. }
  assert (text_field (new_record (h !!! l)) k_Ville
          = text_field (h !!! l) k_Ville) as Hville.
  { apply Htext. intros H; apply list_elem_of_In in H; simpl in H;
      repeat destruct H as [H|H]; try done; key_discr. }
  destruct (exact_duplicate_accepted U ratio
              (text_field (h !!! l) k_Societe) (text_field (h !!! l) k_Ville)
              g (with_dept r0) Hrefl Hn Hc Hin Hnom Hcity)
    as (r & s & Hm & Hr & Hs & Hscore).
  destruct (bucket_member _ _ _ _ Hg Hr) as (r' & Hr' & Hract & -> & _).
  exists (h ++ ((fun l => enrich_record U ratio (create_sirene_by_dept sirene_df)
                            (new_record (h !!! l))) <$> crm_db)), r', s.
  split; [by apply update_CRM_exact|].
  split; [done|]. split; [by apply bool_decide_eq_true in Hract|].
  split; [done|]. split; [done|].
  assert ((h ++ ((fun l => enrich_record U ratio (create_sirene_by_dept sirene_df)
                             (new_record (h !!! l))) <$> crm_db))
            !!! (length h + i)%nat
          = enrich_record U ratio (create_sirene_by_dept sirene_df)
              (new_record (h !!! l))) as ->.
  { apply list_lookup_total_correct. rewrite lookup_app_r by lia.
    replace (length h + i - length h)%nat with i by lia.
    by rewrite list_lookup_fmap, Hi. }
  unfold enrich_record.
  rewrite new_record_is_france, Hfr, new_record_bucket.
  unfold bucket_of_client. rewrite <- Hcp, Hg.
  destruct g as [|b0 g]; [by apply elem_of_nil in Hin|].
  rewrite Hsoc, Hville, Hm. split.
  - rewrite lookup_insert_ne by (intros H; key_discr).
    by rewrite lookup_insert_eq.
  - do 4 (rewrite lookup_insert_ne by (intros H; key_discr)).
    by rewrite lookup_insert_eq.
Qed.

Lemma update_CRM_exact_duplicate_witness :
  exists (h' : heap) (r : sirene_row) (score : Z),
    update_CRM sample_ucd sample_ratio 1 sample_sirene sample_heap sample_crm_db
    = Ok (h', seq (length sample_heap) (length sample_crm_db)) /\
    r ∈ sample_sirene /\
    etatAdministratifEtablissement r = Str (lit "A") /\
    (150 <= score)%Z /\
    score = row_score sample_ucd sample_ratio
              (normalize_name sample_ucd (text_field (sample_heap !!! 1%nat) k_Societe))
              (normalize_name sample_ucd (text_field (sample_heap !!! 1%nat) k_Ville))
              (with_dept r) /\
    (h' !!! (length sample_heap + 1)%nat) !! k_score_match = Some (PInt score) /\
    (h' !!! (length sample_heap + 1)%nat) !! k_SIRET
    = Some (PCell (Str (cell_str (siret r)))).
Proof.
  apply (update_CRM_matches_exact_duplicate sample_ucd sample_ratio 0
           sample_sirene sample_heap sample_crm_db 1 1 row_acme
           sample_ratio_refl).
  - repeat constructor.
  - repeat constructor.
  - reflexivity.
  - reflexivity.
  - apply list_elem_of_In. simpl. tauto.
  - reflexivity.
  - reflexivity.
  - by vm_compute.
  - by vm_compute.
  - by vm_compute.
  - by vm_compute.
Defined.

(** ** Loading the tables *)

Lemma try_separator_unreadable (read_csv : pystr -> outcome frame) (sep : pystr) :
  try_separator read_csv sep
  = if unreadable (read_csv sep) then None else Some (read_csv sep).
Proof.
  unfold try_separator, unreadable.
  destruct (read_csv sep) as [df|[]]; try done.
  unfold frame_empty. by destruct (frame_columns df), (frame_rows df).
Qed.

Lemma load_csv_loop_first (read_csv : pystr -> outcome frame)
    (before : list pystr) (sep : pystr) (after : list pystr) :
  Forall (fun s => unreadable (read_csv s) = true) before ->
  unreadable (read_csv sep) = false ->
  load_csv_loop read_csv (before ++ sep :: after) = read_csv sep.
Proof.
  intros Hbefore Hsep. induction Hbefore as [|s before Hs _ IH]; simpl.
  - by rewrite try_separator_unreadable, Hsep.
  - by rewrite try_separator_unreadable, Hs.
Qed.

Lemma load_csv_loop_none (read_csv : pystr -> outcome frame) (seps : list pystr) :
  Forall (fun s => unreadable (read_csv s) = true) seps ->
  load_csv_loop read_csv seps = Raises ValueError.
Proof.
  induction 1 as [|s seps Hs _ IH]; simpl; [done|].
  by rewrite try_separator_unreadable, Hs.
Qed.

Lemma load_csv_loop_split (read_csv : pystr -> outcome frame) (seps : list pystr) :
  Forall (fun s => unreadable (read_csv s) = true) seps \/
  exists before sep after,
    seps = before ++ sep :: after /\
    Forall (fun s => unreadable (read_csv s) = true) before /\
    unreadable (read_csv sep) = false.
Proof.
  induction seps as [|s seps IH]; [by left|].
  destruct (unreadable (read_csv s)) eqn:Hs.
  - destruct IH as [Hall|(before & sep & after & -> & Hb & Hsep)].
    + left. by constructor.
    + right. exists (s :: before), sep, after. repeat split; [|done].
      by constructor.
  - right. by exists [], s, seps.
Qed.

(** X16: [load_csv] answers with the first separator, in the order
    [','], [';'], tab, whose reading is not empty: it returns that table, or
    raises what the reader raised for it, and does not try the separators
    after it. *)
Theorem load_csv_first_readable_separator
    (read_csv : pystr -> outcome frame)
    (before : list pystr) (sep : pystr) (after : list pystr) :
  separators = before ++ sep :: after ->
  Forall (fun s => unreadable (read_csv s) = true) before ->
  unreadable (read_csv sep) = false ->
  load_csv read_csv = read_csv sep.
Proof.
  intros Hseps Hbefore Hsep. unfold load_csv. rewrite Hseps.
  by apply load_csv_loop_first.
Qed.

Lemma load_csv_first_readable_witness :
  load_csv sample_reader = Returns sample_frame.
Proof.
  apply (load_csv_first_readable_separator sample_reader
           [lit ","] (lit ";") [[0x09%N]]).
  - reflexivity.
  - repeat constructor.
  - reflexivity.
Defined.

(** X17: what [load_csv] can answer, for any reader. A table it returns
    is never empty (it has a column and a row: a file with a header line
    only is not returned) and is the reading for one of the three
    separators. [EmptyDataError] never leaves it. An exception it raises is
    one the reader raised for one of the separators, or the final
    [ValueError], raised when the reading is empty for all three. An
    exception of the reader other than [EmptyDataError] is not caught:
    [ParserError] and [UnicodeDecodeError] reach the caller as they are. *)
Theorem load_csv_outcome (read_csv : pystr -> outcome frame) :
  match load_csv read_csv with
  | Returns df =>
      frame_empty df = false /\
      exists sep, sep ∈ separators /\ read_csv sep = Returns df
  | Raises e =>
      e <> EmptyDataError /\
      ((exists sep, sep ∈ separators /\ read_csv sep = Raises e) \/
       (e = ValueError /\
        Forall (fun s => unreadable (read_csv s) = true) separators))
  end.
Proof.
  unfold load_csv.
  destruct (load_csv_loop_split read_csv separators)
    as [Hall|(before & sep & after & Hseps & Hb & Hsep)].
  - rewrite load_csv_loop_none by done. split; [done|]. by right.
  - pose proof (load_csv_loop_first read_csv before sep after Hb Hsep) as Hrun.
    rewrite <- Hseps in Hrun. rewrite Hrun.
    assert (sep ∈ separators) as Hin.
    { rewrite Hseps. apply elem_of_app. right. apply elem_of_cons. by left. }
    destruct (read_csv sep) as [df|e] eqn:Hread; simpl in Hsep.
    + split; [done|]. by exists sep.
    + split; [by destruct e|]. left. by exists sep.
Qed.

(** X18: what [load_orion] can answer, for any reader. The reader is
    chosen by the extension without regard to case: the Excel reader for
    [.xls] and [.xlsx], the CSV reader for everything else. A table it
    returns is the reading of the chosen reader and is not empty.
    [EmptyDataError], [ParserError] and [UnicodeDecodeError] never leave
    it: an empty table and these three exceptions of the reader all become
    [ValueError]. Any other exception of the reader reaches the caller as
    it is. *)
Theorem load_orion_outcome (U : unicode_data) (ext : pystr)
    (read_excel read_csv : outcome frame) :
  let chosen :=
    if bool_decide (str_lower U ext = lit ".xls" \/ str_lower U ext = lit ".xlsx")
    then read_excel else read_csv in
  match load_orion U ext read_excel read_csv with
  | Returns df => frame_empty df = false /\ chosen = Returns df
  | Raises e =>
      e <> EmptyDataError /\ e <> ParserError /\ e <> UnicodeDecodeError /\
      (chosen = Raises e \/
       (e = ValueError /\
        (chosen = Raises EmptyDataError \/ chosen = Raises ParserError \/
         chosen = Raises UnicodeDecodeError \/
         exists df, chosen = Returns df /\ frame_empty df = true)))
  end.
Proof.
  intros chosen. unfold load_orion.
  assert ((if bool_decide (str_lower U ext ∈ [lit ".xls"; lit ".xlsx"])
           then read_excel else read_csv) = chosen) as ->.
  { unfold chosen. apply (f_equal (fun b : bool => if b then read_excel else read_csv)).
    apply bool_decide_ext. rewrite !elem_of_cons, elem_of_nil. tauto. }
  destruct chosen as [df|e].
  - destruct (frame_empty df) eqn:Hempty.
    + repeat split; try done. right. split; [done|]. repeat right. by exists df.
    + done.
  - destruct e; repeat split; try done; try (by left); right; split; try done; tauto.
Qed.
